(** * hubsign/ratelimit: the in-memory cache and the admission algorithms

    A shallow embedding of [src/cache.ts] (class [Cache]) and of
    [src/single.ts] (the static algorithm factories of [RegionRatelimit]),
    followed by the properties of the specification that were checked
    against them.

    Conventions of the embedding.
    - A JavaScript number that holds an integer is a [Z]; the clock
      [Date.now()] returns a non-negative integer and a window duration is a
      positive integer of milliseconds, so [Math.floor (a / b)] is [a / b]
      on [Z] and [a % b] is [a `mod` b].  The only fractional computation
      (the weighting of the sliding window) is carried out exactly on [Q];
      the only place where the code can produce [NaN] (a division by the
      window index 0) is modelled explicitly.
    - The [Map] behind the cache is a [gmap string Entry]; no operation of
      the code depends on the iteration order of the map.
    - Code that reads the clock and mutates the map lives in the monad [M]:
      a reader for the clock, a state for the map and an exception for the
      errors the code can throw.  The map reached when an error is thrown is
      kept, as in JavaScript.  One call of an algorithm is synchronous and
      reads the clock a few times in a row; all these reads return the same
      instant.
    - The [pending] field of a response is always [Promise.resolve ()] and
      carries no information; it is left out. *)

From Stdlib Require Import ZArith QArith Qround Qminmax Lia.
From stdpp Require Import gmap strings pretty list.

Open Scope Z_scope.

(** ** Data model *)

(** [{ value: number; expireAt?: number }] *)
Record Entry := mkEntry { value : Z; expireAt : option Z }.

#[global] Instance Entry_eq_dec : EqDecision Entry.
Proof. solve_decision. Defined.

(** The errors the code can raise: the [TypeError] of a property read on
    [undefined], and an [Error] thrown explicitly with a message. *)
Inductive error :=
| TypeError
| Error (msg : string).

(** A number that may be [NaN]. *)
Inductive number :=
| Num (z : Z)
| NaN.

(** [RatelimitResponse], without [pending]. *)
Record Verdict := mkVerdict {
  success : bool;
  limit : Z;
  remaining : number;
  reset : Z
}.

(** ** The monad of cache code *)

Definition M (A : Type) : Type :=
  Z → gmap string Entry → (error + A) * gmap string Entry.

#[global] Instance M_ret : MRet M := λ A a _ m, (inr a, m).

#[global] Instance M_bind : MBind M := λ A B f c now m,
  match c now m with
  | (inr a, m') => f a now m'
  | (inl e, m') => (inl e, m')
  end.

Definition throw {A} (e : error) : M A := λ _ m, (inl e, m).

(** [Date.now()] *)
Definition Date_now : M Z := λ now m, (inr now, m).

(** [this.cache.has(key)], [this.cache.get(key)], [this.cache.set(key, e)],
    [this.cache.delete(key)] and [this.cache.entries()] of the JavaScript
    [Map]. *)
Definition Map_has (key : string) : M bool :=
  λ _ m, (inr (bool_decide (is_Some (m !! key))), m).

Definition Map_get (key : string) : M (option Entry) :=
  λ _ m, (inr (m !! key), m).

Definition Map_set (key : string) (e : Entry) : M unit :=
  λ _ m, (inr tt, <[key := e]> m).

Definition Map_delete (key : string) : M unit :=
  λ _ m, (inr tt, delete key m).

Definition Map_entries : M (gmap string Entry) :=
  λ _ m, (inr m, m).

(** [o!.value]: the non-null assertion is erased by the compiler, so the
    property read on [undefined] throws a [TypeError]. *)
Definition bang_value (o : option Entry) : M Z :=
  match o with
  | Some e => mret (value e)
  | None => throw TypeError
  end.

(** Truthiness of an optional number: [undefined] and [0] are falsy. *)
Definition truthy (o : option Z) : bool :=
  match o with
  | Some z => negb (z =? 0)
  | None => false
  end.

(** ** [class Cache] of [src/cache.ts] *)

Module Cache.

Definition isBlocked (identifier : string) : M (bool * Z) :=
  has ← Map_has identifier;
  if negb has then mret (false, 0)
  else
    o ← Map_get identifier;
    reset ← bang_value o;
    now ← Date_now;
    if reset <? now then
      _ ← Map_delete identifier;
      mret (false, 0)
    else mret (true, reset).

Definition blockUntil (identifier : string) (reset : Z) : M unit :=
  Map_set identifier {| value := reset; expireAt := None |}.

(** [this.cache.get(key)?.expireAt ?? 0] *)
Definition expireAt_or_0 (o : option Entry) : Z :=
  match o with
  | Some {| expireAt := Some e |} => e
  | _ => 0
  end.

Definition set (key : string) (value : Z) : M unit :=
  o ← Map_get key;
  Map_set key {| value := value; expireAt := Some (expireAt_or_0 o) |}.

(** [this.cache.get(key)?.value || null]: a stored 0 is falsy. *)
Definition get (key : string) : M (option Z) :=
  o ← Map_get key;
  mret (match o with
        | Some e => if value e =? 0 then None else Some (value e)
        | None => None
        end).

(** The body of the loop of [cleanup], for one entry of the map. *)
Definition cleanup_step (now : Z) (key : string) (e : Entry)
    (m : gmap string Entry) : gmap string Entry :=
  if truthy (expireAt e) then
    if bool_decide (default 0 (expireAt e) ≤ now) then delete key m else m
  else m.

Definition cleanup : M unit :=
  now ← Date_now;
  entries ← Map_entries;
  ((λ _ m, (inr tt, map_fold (cleanup_step now) m entries)) : M unit).

(** [this.cache.get(key)?.value ?? 0] *)
Definition value_or_0 (o : option Entry) : Z :=
  match o with
  | Some e => value e
  | None => 0
  end.

Definition incr (key : string) : M Z :=
  _ ← cleanup;
  o ← Map_get key;
  let value := value_or_0 o + 1 in
  _ ← set key value;
  mret value.

(** The arguments of [this.cache.set] are evaluated first: on a missing
    key the [TypeError] is thrown before the map is written. *)
Definition expire (key : string) (duration : Z) : M unit :=
  o ← Map_get key;
  v ← bang_value o;
  now ← Date_now;
  Map_set key {| value := v; expireAt := Some (now + duration) |}.

End Cache.

(** ** The algorithms of [src/single.ts] *)

(** Modelled from the spec: [src/types.ts], which declares [RegionContext]
    and [Algorithm], is not among the sources.  The algorithms only use the
    optional field [ctx.cache]; the limiter facade fills it with a [Cache]
    around the configured map, or leaves it out when the ephemeral cache is
    disabled. *)
Record RegionContext := mkContext { cache : option (gmap string Entry) }.

(** An algorithm is called at an instant with a context and an identifier;
    it returns a response or throws, and leaves the (mutable) cache of the
    context in a new state. *)
Definition Algorithm : Type :=
  Z → RegionContext → string → (error + Verdict) * RegionContext.

(** Runs cache code on the cache [m] of a context. *)
Definition on_cache (body : M Verdict) (now : Z) (m : gmap string Entry) :
    (error + Verdict) * RegionContext :=
  let '(r, m') := body now m in (r, {| cache := Some m' |}).

(** [[identifier, n].join(":")] *)
Definition join_key (identifier : string) (n : Z) : string :=
  identifier +:+ ":" +:+ pretty n.

(** Arithmetic and comparison of numbers that may be [NaN]: [NaN]
    propagates through [+], [-] and [Math.max], and [NaN >= 0] is false. *)
Definition num_add (a : Z) (b : number) : number :=
  match b with Num z => Num (a + z) | NaN => NaN end.

Definition num_sub (a : Z) (b : number) : number :=
  match b with Num z => Num (a - z) | NaN => NaN end.

Definition num_ge0 (a : number) : bool :=
  match a with Num z => 0 <=? z | NaN => false end.

Definition num_geb (a : number) (b : Z) : bool :=
  match a with Num z => b <=? z | NaN => false end.

Definition num_max0 (a : number) : number :=
  match a with Num z => Num (Z.max 0 z) | NaN => NaN end.

Module RegionRatelimit.

(** [fixedWindow(tokens, window)], with [windowDuration = ms(window)]. *)
Definition fixedWindow (tokens windowDuration : Z) : Algorithm :=
  λ now ctx identifier,
  let bucket := now / windowDuration in
  let key := join_key identifier bucket in
  match cache ctx with
  | Some m =>
    on_cache (
      '(blocked, reset) ← Cache.isBlocked identifier;
      if blocked : bool then
        mret {| success := false; limit := tokens;
                remaining := Num 0; reset := reset |}
      else
        usedTokensAfterUpdate ← Cache.incr key;
        _ ← Cache.expire key windowDuration;
        let success := usedTokensAfterUpdate <=? tokens in
        let resetNew := (bucket + 1) * windowDuration in
        _ ← (if negb success then Cache.blockUntil identifier resetNew
             else mret tt);
        mret {| success := success; limit := tokens;
                remaining := Num (Z.max 0 (tokens - usedTokensAfterUpdate));
                reset := reset |}) now m
  | None =>
    (inr {| success := true; limit := tokens;
            remaining := Num 0; reset := 0 |}, ctx)
  end.

(** [(now % currentWindow) / currentWindow]; the division 0/0 of the
    window index 0 is [NaN], represented by [None]. *)
Definition percentageInCurrent (now currentWindow : Z) : option Q :=
  if currentWindow =? 0 then None
  else Some (inject_Z (now `mod` currentWindow) / inject_Z currentWindow)%Q.

(** [Math.floor((1 - percentageInCurrent) * requestsInPreviousWindow)],
    computed exactly.  The code computes it in double precision, where the
    product can fall just below an integer that the exact product reaches
    and is then floored one lower (at [now = 50004], window index 5 and 5
    previous requests the code obtains 0 and the exact value is 1); the two
    agree whenever the fraction is exact in binary. *)
Definition weightedPrevious (now currentWindow requestsInPreviousWindow : Z)
    : number :=
  match percentageInCurrent now currentWindow with
  | Some p => Num (Qfloor ((1 - p) * inject_Z requestsInPreviousWindow))
  | None => NaN
  end.

(** [slidingWindow(tokens, window)], with [windowSize = ms(window)].  The
    assignment [remaining = -1] of the source is overwritten before it is
    read. *)
Definition slidingWindow (tokens windowSize : Z) : Algorithm :=
  λ now ctx identifier,
  let currentWindow := now / windowSize in
  let currentKey := join_key identifier currentWindow in
  let previousWindow := currentWindow - 1 in
  let previousKey := join_key identifier previousWindow in
  let remaining0 := 0 in
  match cache ctx with
  | Some m =>
    on_cache (
      '(blocked, reset) ← Cache.isBlocked identifier;
      if blocked : bool then
        mret {| success := false; limit := tokens;
                remaining := Num 0; reset := reset |}
      else
        cur ← Cache.get currentKey;
        let requestsInCurrentWindow := default 0 cur in
        prev ← Cache.get previousKey;
        let requestsInPreviousWindow := default 0 prev in
        let requestsInPreviousWindow :=
          weightedPrevious now currentWindow requestsInPreviousWindow in
        let remaining :=
          if num_geb (num_add requestsInCurrentWindow
                        requestsInPreviousWindow) tokens
          then -1 else remaining0 in
        newValue ← Cache.incr currentKey;
        _ ← (if newValue =? 1
             then Cache.expire currentKey (windowSize * 2 + 1000)
             else mret tt);
        let remaining :=
          num_sub tokens (num_add newValue requestsInPreviousWindow) in
        let success := num_ge0 remaining in
        let reset := (currentWindow + 1) * windowSize in
        _ ← (if negb success then Cache.blockUntil identifier reset
             else mret tt);
        mret {| success := success; limit := tokens;
                remaining := num_max0 remaining; reset := reset |}) now m
  | None =>
    (inr {| success := true; limit := tokens;
            remaining := Num (Z.max 0 remaining0); reset := 0 |}, ctx)
  end.

(** [tokenBucket(refillRate, interval, maxTokens)].  The source ignores
    [refillRate] and [interval]: the refill is a [TODO], [remaining] and
    [reset] are the constant 0. *)
Definition tokenBucket (refillRate intervalDuration maxTokens : Z)
    : Algorithm :=
  λ now ctx identifier,
  let rest (ctx : RegionContext) : (error + Verdict) * RegionContext :=
    let remaining := 0 in
    let reset := 0 in
    let success := 0 <=? remaining in
    let v := {| success := success; limit := maxTokens;
                remaining := Num remaining; reset := reset |} in
    match cache ctx with
    | Some m =>
      on_cache (
        _ ← (if negb success then Cache.blockUntil identifier reset
             else mret tt);
        mret v) now m
    | None => (inr v, ctx)
    end in
  match cache ctx with
  | Some m =>
    match Cache.isBlocked identifier now m with
    | (inr (true, reset), m') =>
      (inr {| success := false; limit := maxTokens;
              remaining := Num 0; reset := reset |},
       {| cache := Some m' |})
    | (inr (false, _), m') => rest {| cache := Some m' |}
    | (inl e, m') => (inl e, {| cache := Some m' |})
    end
  | None => rest ctx
  end.

(** [cachedFixedWindow(tokens, window)], with
    [windowDuration = ms(window)]. *)
Definition cachedFixedWindow (tokens windowDuration : Z) : Algorithm :=
  λ now ctx identifier,
  match cache ctx with
  | None => (inl (Error "This algorithm requires a cache"), ctx)
  | Some m =>
    let bucket := now / windowDuration in
    let key := join_key identifier bucket in
    let reset := (bucket + 1) * windowDuration in
    on_cache (
      o ← Cache.get key;
      let hit := bool_decide (is_Some o) in
      if hit then
        cachedTokensAfterUpdate ← Cache.incr key;
        let success := cachedTokensAfterUpdate <? tokens in
        mret {| success := success; limit := tokens;
                remaining := Num (tokens - cachedTokensAfterUpdate);
                reset := reset |}
      else
        let usedTokensAfterUpdate := 0 in
        _ ← Cache.set key usedTokensAfterUpdate;
        let remaining := tokens - usedTokensAfterUpdate in
        mret {| success := 0 <=? remaining; limit := tokens;
                remaining := Num remaining; reset := reset |}) now m
  end.

End RegionRatelimit.

(** ** Sequences of calls *)

(** Calls of one algorithm for one identifier at the instants [ts], each on
    the context left by the call before; the results are returned in
    order. *)
Fixpoint run_calls (alg : Algorithm) (identifier : string) (ts : list Z)
    (ctx : RegionContext) : list (error + Verdict) * RegionContext :=
  match ts with
  | [] => ([], ctx)
  | t :: ts' =>
    let '(r, ctx') := alg t ctx identifier in
    let '(rs, ctx'') := run_calls alg identifier ts' ctx' in
    (r :: rs, ctx'')
  end.

(** Requests made for one identifier: the block index is asked directly, or
    one of the three algorithms that consult it is evaluated. *)
Inductive limiter :=
| FixedWindow (tokens windowDuration : Z)
| SlidingWindow (tokens windowSize : Z)
| TokenBucket (refillRate intervalDuration maxTokens : Z).

Definition algorithm_of (l : limiter) : Algorithm :=
  match l with
  | FixedWindow tokens w => RegionRatelimit.fixedWindow tokens w
  | SlidingWindow tokens w => RegionRatelimit.slidingWindow tokens w
  | TokenBucket r i mx => RegionRatelimit.tokenBucket r i mx
  end.

Definition limit_of (l : limiter) : Z :=
  match l with
  | FixedWindow tokens _ => tokens
  | SlidingWindow tokens _ => tokens
  | TokenBucket _ _ mx => mx
  end.

Inductive request :=
| AskBlocked
| Evaluate (l : limiter).

Inductive answer :=
| Blocked (blocked : bool) (reset : Z)
| Answered (v : Verdict)
| Raised (e : error).

Definition perform (identifier : string) (t : Z) (r : request)
    (m : gmap string Entry) : answer * option (gmap string Entry) :=
  match r with
  | AskBlocked =>
    match Cache.isBlocked identifier t m with
    | (inr (b, reset), m') => (Blocked b reset, Some m')
    | (inl e, m') => (Raised e, Some m')
    end
  | Evaluate l =>
    match algorithm_of l t {| cache := Some m |} identifier with
    | (inr v, ctx') => (Answered v, cache ctx')
    | (inl e, ctx') => (Raised e, cache ctx')
    end
  end.

Fixpoint perform_all (identifier : string) (rs : list (Z * request))
    (m : gmap string Entry) : list answer * option (gmap string Entry) :=
  match rs with
  | [] => ([], Some m)
  | (t, r) :: rs' =>
    match perform identifier t r m with
    | (a, Some m') =>
      let '(answers, m'') := perform_all identifier rs' m' in
      (a :: answers, m'')
    | (a, None) => ([a], None)
    end
  end.

(** The answer of the fast-reject path for a block that lifts at [R]. *)
Definition fast_reject (R : Z) (r : request) : answer :=
  match r with
  | AskBlocked => Blocked true R
  | Evaluate l =>
    Answered {| success := false; limit := limit_of l;
                remaining := Num 0; reset := R |}
  end.

(** ** Auxiliary notions for the statements *)

(** An entry that [cleanup] deletes at the instant [now]. *)
Definition expired (now : Z) (e : Entry) : bool :=
  truthy (expireAt e) && bool_decide (default 0 (expireAt e) ≤ now).

(** The map left by [cleanup] at the instant [now]. *)
Definition sweep (now : Z) (m : gmap string Entry) : gmap string Entry :=
  map_fold (Cache.cleanup_step now) m m.

(** The weighting of the previous window as the specification words it:
    the elapsed fraction of the current window is
    [(now mod windowMs) / windowMs]. *)
Definition elapsedFraction_spec (now windowMs : Z) : Q :=
  (inject_Z (now `mod` windowMs) / inject_Z windowMs)%Q.

Definition weightedPrevious_spec (now windowMs requestsInPrevious : Z) : Z :=
  Qfloor ((1 - elapsedFraction_spec now windowMs)
          * inject_Z requestsInPrevious).

(** The token bucket as the specification words it: the refill
    [tokensNow = min (maxTokens, storedTokens + elapsed / interval * refillRate)]
    and the decision [success = (tokensNow - 1 >= 0)]. *)
Definition tokensNow_spec (maxTokens refillRate interval storedTokens
    elapsed : Z) : Q :=
  Qmin (inject_Z maxTokens)
       (inject_Z storedTokens
        + inject_Z elapsed / inject_Z interval * inject_Z refillRate)%Q.

Definition tokenBucket_success_spec (tokensNow : Q) : bool :=
  Qle_bool 0 (tokensNow - 1).

(** The verdict of the [i]-th admitted call of a fixed window of limit
    [tokens], and the verdict of the call that exceeds the limit, as
    [fixedWindow] returns them (with the [reset] that it returns on this
    path, 0). *)
Definition admitted (tokens i : Z) : error + Verdict :=
  inr {| success := true; limit := tokens;
         remaining := Num (tokens - i); reset := 0 |}.

Definition rejected (tokens : Z) : error + Verdict :=
  inr {| success := false; limit := tokens;
         remaining := Num 0; reset := 0 |}.

(** The verdict of a call that is answered from the block record of
    instant [R]. *)
Definition short_circuited (tokens R : Z) : error + Verdict :=
  inr {| success := false; limit := tokens;
         remaining := Num 0; reset := R |}.

(** The cache of a fixed window of duration [w] after [k] counted calls for
    [identifier] in the bucket [b]: no block record, and a counter of value
    [k] that outlives the bucket (no counter at all before the first call). *)
Definition counted (identifier : string) (w b k : Z)
    (m : gmap string Entry) : Prop :=
  m !! identifier = None ∧
  ((k = 0 ∧ m !! join_key identifier b = None) ∨
   (∃ x, m !! join_key identifier b =
           Some {| value := k; expireAt := Some x |} ∧ (b + 1) * w ≤ x)).

(** A cache whose stored values are all non-negative, as the counts and the
    block instants written by the algorithms are. *)
Definition counters_nonneg (m : gmap string Entry) : Prop :=
  ∀ key e, m !! key = Some e → 0 ≤ value e.

(** [incr key] at each of the instants [ts], in order, with the counts it
    returns. *)
Fixpoint incr_all (key : string) (ts : list Z) (m : gmap string Entry)
    : list (error + Z) * gmap string Entry :=
  match ts with
  | [] => ([], m)
  | t :: ts' =>
    let '(r, m') := Cache.incr key t m in
    let '(rs, m'') := incr_all key ts' m' in
    (r :: rs, m'')
  end.

(** A cache in which every stored value is 0, as the entries written by the
    miss path of [cachedFixedWindow] are. *)
Definition zero_valued (m : gmap string Entry) : Prop :=
  ∀ key e, m !! key = Some e → value e = 0.

(** The cache of a sliding window of size [w] after [k] counted calls for
    [identifier] in the window [c], when the window before it counted
    nothing: no block record, no counter for the window [c - 1], and a
    counter of value [k] that outlives the window [c] (no counter at all
    before the first call). *)
Definition sliding_counted (identifier : string) (w c k : Z)
    (m : gmap string Entry) : Prop :=
  m !! identifier = None ∧
  m !! join_key identifier (c - 1) = None ∧
  ((k = 0 ∧ m !! join_key identifier c = None) ∨
   (∃ x, m !! join_key identifier c =
           Some {| value := k; expireAt := Some x |} ∧ (c + 1) * w ≤ x)).

(** ** The cache operations as functions of the clock and the map *)

Section CacheRuns.

Implicit Types (key identifier : string) (m : gmap string Entry)
               (now : Z) (e : Entry).

Lemma map_fold_cleanup_lookup now m acc key :
  map_fold (Cache.cleanup_step now) acc m !! key =
  match m !! key with
  | Some e => if expired now e then None else acc !! key
  | None => acc !! key
  end.
Proof.
  revert key. apply (map_fold_weak_ind
    (λ r m', ∀ key, r !! key =
       match m' !! key with
       | Some e => if expired now e then None else acc !! key
       | None => acc !! key
       end)).
  - intros key. by rewrite lookup_empty.
  - intros i x m' r Hi IH key.
    unfold Cache.cleanup_step, expired.
    destruct (decide (i = key)) as [->|Hne].
    + rewrite lookup_insert_eq.
      specialize (IH key). rewrite Hi in IH.
      destruct (truthy (expireAt x)); simpl; [|done].
      destruct (bool_decide _); [by rewrite lookup_delete_eq | done].
    + rewrite lookup_insert_ne by done.
      destruct (truthy (expireAt x)); simpl; [|by apply IH].
      destruct (bool_decide _); [|by apply IH].
      rewrite lookup_delete_ne by done. apply IH.
Qed.

Lemma sweep_lookup now m key :
  sweep now m !! key =
  match m !! key with
  | Some e => if expired now e then None else Some e
  | None => None
  end.
Proof.
  unfold sweep. rewrite map_fold_cleanup_lookup.
  destruct (m !! key) eqn:E; [|done]. by destruct (expired now e).
Qed.

Lemma cleanup_run now m : Cache.cleanup now m = (inr tt, sweep now m).
Proof. reflexivity. Qed.

Lemma isBlocked_run identifier now m :
  Cache.isBlocked identifier now m =
  match m !! identifier with
  | None => (inr (false, 0), m)
  | Some e =>
    if value e <? now then (inr (false, 0), delete identifier m)
    else (inr (true, value e), m)
  end.
Proof.
  unfold Cache.isBlocked, mbind, M_bind, Map_has, Map_get. simpl.
  destruct (m !! identifier) as [e|] eqn:E; simpl; rewrite ?E; simpl.
  - by destruct (value e <? now).
  - done.
Qed.

Lemma get_run key now m :
  Cache.get key now m =
  (inr (match m !! key with
        | Some e => if value e =? 0 then None else Some (value e)
        | None => None
        end), m).
Proof. reflexivity. Qed.

Lemma set_run key v now m :
  Cache.set key v now m =
  (inr tt, <[key := {| value := v;
                       expireAt := Some (Cache.expireAt_or_0 (m !! key)) |}]> m).
Proof. reflexivity. Qed.

Lemma incr_run key now m :
  Cache.incr key now m =
  let m1 := sweep now m in
  let v := Cache.value_or_0 (m1 !! key) + 1 in
  (inr v, <[key := {| value := v;
                      expireAt := Some (Cache.expireAt_or_0 (m1 !! key)) |}]> m1).
Proof. reflexivity. Qed.

Lemma expire_run key duration now m :
  Cache.expire key duration now m =
  match m !! key with
  | Some e =>
    (inr tt, <[key := {| value := value e;
                         expireAt := Some (now + duration) |}]> m)
  | None => (inl TypeError, m)
  end.
Proof.
  unfold Cache.expire, mbind, M_bind, Map_get. simpl.
  by destruct (m !! key).
Qed.

Lemma blockUntil_run identifier r now m :
  Cache.blockUntil identifier r now m =
  (inr tt, <[identifier := {| value := r; expireAt := None |}]> m).
Proof. reflexivity. Qed.

End CacheRuns.

(** ** The algorithms as functions of the clock and the map *)

Lemma bind_run {A B} (c : M A) (f : A → M B) now m :
  (c ≫= f) now m =
  match c now m with
  | (inr a, m') => f a now m'
  | (inl e, m') => (inl e, m')
  end.
Proof. reflexivity. Qed.

Section AlgorithmRuns.

Implicit Types (key identifier : string) (m : gmap string Entry)
               (now : Z) (e : Entry).

Lemma length_append (s1 s2 : string) :
  String.length (s1 +:+ s2) = (String.length s1 + String.length s2)%nat.
Proof. induction s1 as [|a s1 IH]; simpl; [done | by rewrite IH]. Qed.

(** A window key is never the bare identifier. *)
Lemma join_key_ne identifier n : join_key identifier n ≠ identifier.
Proof.
  unfold join_key. intros H. apply (f_equal String.length) in H.
  rewrite !length_append in H. simpl in H. lia.
Qed.

Lemma isBlocked_false identifier now m r0 m1 :
  Cache.isBlocked identifier now m = (inr (false, r0), m1) →
  r0 = 0 ∧ m1 !! identifier = None.
Proof.
  rewrite isBlocked_run.
  destruct (m !! identifier) as [e|] eqn:E.
  - destruct (value e <? now); intros [= <- <-]. by rewrite lookup_delete_eq.
  - by intros [= <- <-].
Qed.

Lemma isBlocked_true identifier now m R m1 :
  Cache.isBlocked identifier now m = (inr (true, R), m1) →
  m1 = m ∧ (∃ e, m !! identifier = Some e ∧ value e = R) ∧ now ≤ R.
Proof.
  rewrite isBlocked_run.
  destruct (m !! identifier) as [e|] eqn:E; [|done].
  destruct (value e <? now) eqn:Hlt; intros [= <- <-].
  split; [done|]. split; [eauto|]. lia.
Qed.

Lemma isBlocked_cases identifier now m :
  (∃ R, Cache.isBlocked identifier now m = (inr (true, R), m)) ∨
  (∃ m1, Cache.isBlocked identifier now m = (inr (false, 0), m1) ∧
         ∀ key e, m1 !! key = Some e → m !! key = Some e).
Proof.
  rewrite isBlocked_run. destruct (m !! identifier) as [e|] eqn:He.
  - destruct (value e <? now); [right|left; eauto].
    eexists. split; [done|]. intros key e' H.
    by apply lookup_delete_Some in H as [_ H].
  - right. eauto.
Qed.

(** [fixedWindow] past the block index: the verdict, and the map left by
    [incr], [expire] and, on a rejection, [blockUntil]. *)
Lemma fixedWindow_not_blocked tokens w now identifier m r0 m1 :
  Cache.isBlocked identifier now m = (inr (false, r0), m1) →
  let key := join_key identifier (now / w) in
  let count := Cache.value_or_0 (sweep now m1 !! key) + 1 in
  let m2 := <[key := {| value := count; expireAt := Some (now + w) |}]>
              (sweep now m1) in
  RegionRatelimit.fixedWindow tokens w now {| cache := Some m |} identifier =
  (inr {| success := count <=? tokens; limit := tokens;
          remaining := Num (Z.max 0 (tokens - count)); reset := 0 |},
   {| cache := Some (if count <=? tokens then m2
                     else <[identifier :=
                              {| value := (now / w + 1) * w;
                                 expireAt := None |}]> m2) |}).
Proof.
  intros Hb key count m2.
  destruct (isBlocked_false _ _ _ _ _ Hb) as [-> _].
  unfold RegionRatelimit.fixedWindow, on_cache. simpl.
  rewrite bind_run, Hb. cbv beta iota.
  rewrite bind_run, incr_run. cbv beta iota zeta.
  rewrite bind_run, expire_run, lookup_insert_eq. cbv beta iota. cbn [value].
  rewrite insert_insert_eq. fold key. fold count. fold m2.
  rewrite bind_run.
  by destruct (count <=? tokens).
Qed.

(** What [slidingWindow] reads with [get] and defaults to 0 is the stored
    value, or 0. *)
Lemma default_get_value_or_0 (o : option Entry) :
  default 0 (match o with
             | Some e => if value e =? 0 then None else Some (value e)
             | None => None
             end) = Cache.value_or_0 o.
Proof.
  destruct o as [e|]; [|done]. simpl.
  destruct (value e =? 0) eqn:Hz; [|done]. simpl. lia.
Qed.

(** [slidingWindow] past the block index. *)
Lemma slidingWindow_not_blocked tokens w now identifier m r0 m1 :
  Cache.isBlocked identifier now m = (inr (false, r0), m1) →
  let newValue :=
    Cache.value_or_0 (sweep now m1 !! join_key identifier (now / w)) + 1 in
  let prev := Cache.value_or_0 (m1 !! join_key identifier (now / w - 1)) in
  let remaining :=
    num_sub tokens
      (num_add newValue
         (RegionRatelimit.weightedPrevious now (now / w) prev)) in
  ∃ m',
    RegionRatelimit.slidingWindow tokens w now {| cache := Some m |}
      identifier =
    (inr {| success := num_ge0 remaining; limit := tokens;
            remaining := num_max0 remaining;
            reset := (now / w + 1) * w |}, {| cache := Some m' |}).
Proof.
  intros Hb newValue prev remaining.
  unfold RegionRatelimit.slidingWindow, on_cache. simpl.
  rewrite bind_run, Hb. cbv beta iota.
  rewrite bind_run, get_run. cbv beta iota.
  rewrite bind_run, get_run. cbv beta iota.
  rewrite bind_run, incr_run. cbv beta iota zeta.
  rewrite default_get_value_or_0.
  fold newValue. fold prev. fold remaining.
  rewrite bind_run.
  destruct (newValue =? 1).
  - rewrite expire_run, lookup_insert_eq. cbv beta iota.
    rewrite bind_run. destruct (num_ge0 remaining); simpl; eauto.
  - simpl. rewrite bind_run. destruct (num_ge0 remaining); simpl; eauto.
Qed.

(** [tokenBucket] past the block index: nothing is computed or stored. *)
Lemma tokenBucket_not_blocked refillRate intervalDuration maxTokens now
    identifier m r0 m1 :
  Cache.isBlocked identifier now m = (inr (false, r0), m1) →
  RegionRatelimit.tokenBucket refillRate intervalDuration maxTokens now
    {| cache := Some m |} identifier =
  (inr {| success := true; limit := maxTokens;
          remaining := Num 0; reset := 0 |}, {| cache := Some m1 |}).
Proof.
  intros Hb. unfold RegionRatelimit.tokenBucket. simpl. by rewrite Hb.
Qed.

Lemma run_calls_app alg identifier ts1 ts2 ctx :
  run_calls alg identifier (ts1 ++ ts2) ctx =
  let '(rs1, ctx1) := run_calls alg identifier ts1 ctx in
  let '(rs2, ctx2) := run_calls alg identifier ts2 ctx1 in
  (rs1 ++ rs2, ctx2).
Proof.
  revert ctx. induction ts1 as [|t ts1 IH]; intros ctx; simpl.
  - by destruct (run_calls alg identifier ts2 ctx).
  - destruct (alg t ctx identifier) as [r ctx']. rewrite IH.
    destruct (run_calls alg identifier ts1 ctx') as [rs1 ctx1].
    by destruct (run_calls alg identifier ts2 ctx1).
Qed.

End AlgorithmRuns.

(** ** The fast-reject path *)

Section FastReject.

Variables (identifier : string) (m : gmap string Entry) (R : Z).
Hypothesis Hrecord : ∃ e, m !! identifier = Some e ∧ value e = R.

Lemma isBlocked_before now :
  now ≤ R → Cache.isBlocked identifier now m = (inr (true, R), m).
Proof.
  intros Hnow. destruct Hrecord as (e & He & <-).
  rewrite isBlocked_run, He.
  by rewrite (proj2 (Z.ltb_ge _ _)) by done.
Qed.

Lemma algorithm_fast_reject l now :
  now ≤ R →
  algorithm_of l now {| cache := Some m |} identifier =
  (short_circuited (limit_of l) R, {| cache := Some m |}).
Proof.
  intros Hnow. pose proof (isBlocked_before now Hnow) as Hb.
  destruct l; simpl.
  - unfold RegionRatelimit.fixedWindow, on_cache. simpl.
    by rewrite bind_run, Hb.
  - unfold RegionRatelimit.slidingWindow, on_cache. simpl.
    by rewrite bind_run, Hb.
  - unfold RegionRatelimit.tokenBucket. simpl. by rewrite Hb.
Qed.

Lemma run_calls_fast_reject l ts :
  Forall (λ t, t ≤ R) ts →
  run_calls (algorithm_of l) identifier ts {| cache := Some m |} =
  ((λ _, short_circuited (limit_of l) R) <$> ts, {| cache := Some m |}).
Proof.
  induction 1 as [|t ts Ht _ IH]; [done|].
  cbn [run_calls]. rewrite algorithm_fast_reject by done. by rewrite IH.
Qed.

Lemma perform_fast_reject t r :
  t ≤ R → perform identifier t r m = (fast_reject R r, Some m).
Proof.
  intros Ht. destruct r as [|l]; simpl.
  - by rewrite isBlocked_before.
  - pose proof (algorithm_fast_reject l t Ht) as H. simpl in H.
    by rewrite H.
Qed.

Lemma perform_all_fast_reject rs :
  Forall (λ tr, tr.1 ≤ R) rs →
  perform_all identifier rs m = ((λ tr, fast_reject R tr.2) <$> rs, Some m).
Proof.
  induction 1 as [|[t r] rs Ht _ IH]; [done|].
  cbn [perform_all]. rewrite perform_fast_reject by done.
  by rewrite IH.
Qed.

End FastReject.

(** ** Counting inside one bucket of the fixed window *)

Section FixedWindowBucket.

Variables (tokens w b : Z) (identifier : string).
Hypothesis Hw : 0 < w.

Lemma in_bucket_bounds now : now / w = b → b * w ≤ now < (b + 1) * w.
Proof.
  intros <-. pose proof (Z.mod_pos_bound now w Hw).
  pose proof (Z.div_mod now w ltac:(lia)). nia.
Qed.

(** One call in the bucket [b] after [k] counted calls. *)
Lemma fixedWindow_step k now m :
  now / w = b → counted identifier w b k m →
  ∃ m', RegionRatelimit.fixedWindow tokens w now {| cache := Some m |}
          identifier =
        (inr {| success := k + 1 <=? tokens; limit := tokens;
                remaining := Num (Z.max 0 (tokens - (k + 1)));
                reset := 0 |}, {| cache := Some m' |})
    ∧ (k + 1 ≤ tokens → counted identifier w b (k + 1) m')
    ∧ (tokens < k + 1 →
       m' !! identifier =
         Some {| value := (b + 1) * w; expireAt := None |}).
Proof.
  intros Hb [Hid Hkey].
  pose proof (in_bucket_bounds _ Hb) as Hnow.
  assert (Cache.isBlocked identifier now m = (inr (false, 0), m)) as Hnb.
  { by rewrite isBlocked_run, Hid. }
  rewrite (fixedWindow_not_blocked _ _ _ _ _ _ _ Hnb). cbv zeta.
  rewrite Hb.
  assert (Cache.value_or_0 (sweep now m !! join_key identifier b) = k)
    as ->.
  { rewrite sweep_lookup.
    destruct Hkey as [[-> ->]|(x & -> & Hx)]; [done|].
    unfold expired. simpl.
    rewrite (bool_decide_eq_false_2 (x ≤ now)) by lia.
    by rewrite andb_false_r. }
  eexists. split; [reflexivity|]. split.
  - intros Hle. rewrite (proj2 (Z.leb_le _ _) Hle). split.
    + rewrite lookup_insert_ne by apply join_key_ne.
      by rewrite sweep_lookup, Hid.
    + right. eexists. rewrite lookup_insert_eq. split; [done|]. nia.
  - intros Hlt. rewrite (proj2 (Z.leb_gt _ _) Hlt).
    by rewrite lookup_insert_eq.
Qed.

(** The calls that remain in the bucket after [k] counted calls, up to and
    including the first rejected one. *)
Lemma fixedWindow_window ts k m :
  0 ≤ k ≤ tokens →
  length ts = Z.to_nat (tokens - k + 1) →
  Forall (λ t, t / w = b) ts →
  counted identifier w b k m →
  ∃ m', run_calls (RegionRatelimit.fixedWindow tokens w) identifier ts
          {| cache := Some m |} =
        ((admitted tokens <$> seqZ (k + 1) (tokens - k))
           ++ [rejected tokens], {| cache := Some m' |})
    ∧ m' !! identifier =
        Some {| value := (b + 1) * w; expireAt := None |}.
Proof.
  revert k m. induction ts as [|t ts IH]; intros k m Hk Hlen Hts Hm.
  - simpl in Hlen. lia.
  - apply Forall_cons in Hts as [Ht Hts].
    destruct (fixedWindow_step k t m Ht Hm) as (m' & Hrun & Hadm & Hrej).
    simpl. rewrite Hrun.
    destruct (decide (k = tokens)) as [->|Hne].
    + assert (ts = []) as ->.
      { apply nil_length_inv. simpl in Hlen. lia. }
      simpl. exists m'. split; [|apply Hrej; lia].
      rewrite seqZ_nil by lia. simpl. unfold rejected.
      rewrite (proj2 (Z.leb_gt _ _)) by lia.
      by rewrite Z.max_l by lia.
    + destruct (IH (k + 1) m') as (m'' & Hrun' & Hblock);
        [lia | simpl in Hlen; lia | done | apply Hadm; lia |].
      rewrite Hrun'. exists m''. split; [|done].
      rewrite (seqZ_cons (k + 1)) by lia. simpl.
      rewrite (proj2 (Z.leb_le _ _)) by lia.
      rewrite Z.max_r by lia. unfold admitted at 2.
      repeat f_equal; lia.
Qed.

End FixedWindowBucket.

(** ** C1: window isolation of the fixed window *)

(** C1. Fixed window of limit [tokens] and window [w], on a cache that holds
    neither a block record for the identifier nor a counter for the bucket
    [b] (the empty cache in particular).  Of any calls for the identifier
    made at instants of the bucket [b], however they are spaced, the first
    [tokens] return [success = true] with [remaining] descending
    [tokens - 1, ..., 0]; call [tokens + 1] returns [success = false] and
    [remaining = 0] and leaves a block record for the identifier whose
    stored instant is the start of the next bucket, [(b + 1) * w]; every
    further call of the bucket is rejected from that record, which is still
    in place at the end. *)
Theorem fixedWindow_window_isolation (tokens w b : Z) (identifier : string)
    (ts extra : list Z) (m : gmap string Entry) :
  0 ≤ tokens → 0 < w →
  m !! identifier = None → m !! join_key identifier b = None →
  length ts = Z.to_nat (tokens + 1) →
  Forall (λ t, t / w = b) (ts ++ extra) →
  ∃ m', run_calls (RegionRatelimit.fixedWindow tokens w) identifier
          (ts ++ extra) {| cache := Some m |} =
        ((admitted tokens <$> seqZ 1 tokens) ++ [rejected tokens]
           ++ ((λ _, short_circuited tokens ((b + 1) * w)) <$> extra),
         {| cache := Some m' |})
    ∧ m' !! identifier = Some {| value := (b + 1) * w; expireAt := None |}.
Proof.
  intros Htok Hw Hid Hkey Hlen Hts.
  apply Forall_app in Hts as [Hts Hextra].
  destruct (fixedWindow_window tokens w b identifier Hw ts 0 m)
    as (m' & Hrun & Hblock); [lia | by rewrite Z.sub_0_r | done | | ].
  { split; [done|]. by left. }
  exists m'. split; [|done].
  assert (Forall (λ t, t ≤ (b + 1) * w) extra) as Hle.
  { eapply Forall_impl; [exact Hextra|]. intros t Ht. simpl in Ht.
    pose proof (in_bucket_bounds w b Hw t Ht). lia. }
  pose proof (run_calls_fast_reject identifier m' ((b + 1) * w)
                ltac:(eauto) (FixedWindow tokens w) extra Hle) as Hfast.
  simpl in Hfast.
  rewrite run_calls_app, Hrun. cbv beta iota. rewrite Hfast.
  by rewrite Z.sub_0_r, <- app_assoc.
Qed.

(** The concrete scenario of C1: limit 10, window 10,000 ms, identifier
    ["X"], the empty cache; eleven unevenly spaced calls in the bucket that
    starts at 20,000 ms, and a twelfth one millisecond after the
    eleventh. *)
Lemma fixedWindow_concrete_scenario :
  ∃ m', run_calls (RegionRatelimit.fixedWindow 10 10000) "X"
          ([20000; 20001; 20002; 21000; 25000; 25000; 27500; 29000; 29990;
            29997; 29998] ++ [29999]) {| cache := Some ∅ |} =
        ([inr (mkVerdict true 10 (Num 9) 0); inr (mkVerdict true 10 (Num 8) 0);
          inr (mkVerdict true 10 (Num 7) 0); inr (mkVerdict true 10 (Num 6) 0);
          inr (mkVerdict true 10 (Num 5) 0); inr (mkVerdict true 10 (Num 4) 0);
          inr (mkVerdict true 10 (Num 3) 0); inr (mkVerdict true 10 (Num 2) 0);
          inr (mkVerdict true 10 (Num 1) 0); inr (mkVerdict true 10 (Num 0) 0);
          inr (mkVerdict false 10 (Num 0) 0);
          inr (mkVerdict false 10 (Num 0) 30000)], {| cache := Some m' |})
    ∧ m' !! "X" = Some {| value := 30000; expireAt := None |}.
Proof.
  apply (fixedWindow_window_isolation 10 10000 2 "X"
           [20000; 20001; 20002; 21000; 25000; 25000; 27500; 29000; 29990;
            29997; 29998] [29999] ∅).
  - lia.
  - lia.
  - reflexivity.
  - reflexivity.
  - reflexivity.
  - repeat (constructor; [reflexivity|]). constructor.
Defined.

(** ** C2: monotonic blocking *)

(** C2. Once [isBlocked identifier] has returned [blocked = true] with the
    reset instant [R], it has left the cache as it was, and every later
    request for the identifier made at an instant before [R] -- asking
    [isBlocked] again, or evaluating the fixed window, the sliding window or
    the token bucket -- is answered from the block record: [isBlocked]
    returns [blocked = true] with the same [R], the algorithms return
    [success = false], [remaining = 0] and [reset = R], and the cache,
    hence every counter key, is still unchanged after all of them. *)
Theorem monotonic_blocking (identifier : string) (m0 m : gmap string Entry)
    (t0 R : Z) (rs : list (Z * request)) :
  Cache.isBlocked identifier t0 m0 = (inr (true, R), m) →
  Forall (λ tr, tr.1 < R) rs →
  m = m0 ∧
  perform_all identifier rs m = ((λ tr, fast_reject R tr.2) <$> rs, Some m).
Proof.
  intros Hb Hrs. destruct (isBlocked_true _ _ _ _ _ Hb) as (-> & He & _).
  split; [done|]. apply perform_all_fast_reject; [done|].
  eapply Forall_impl; [exact Hrs|]. simpl. lia.
Qed.

(** An instance of C2: a block record until 30,000 ms, asked and evaluated
    at instants before it. *)
Lemma monotonic_blocking_witness :
  let m : gmap string Entry :=
    <["X" := {| value := 30000; expireAt := None |}]> ∅ in
  m = m ∧
  perform_all "X"
    [(29000, AskBlocked); (29001, Evaluate (FixedWindow 10 10000));
     (29500, Evaluate (SlidingWindow 10 10000));
     (29998, Evaluate (TokenBucket 5 10000 10)); (29999, AskBlocked)] m =
  ([Blocked true 30000; Answered (mkVerdict false 10 (Num 0) 30000);
    Answered (mkVerdict false 10 (Num 0) 30000);
    Answered (mkVerdict false 10 (Num 0) 30000); Blocked true 30000],
   Some m).
Proof.
  intros m.
  apply (monotonic_blocking "X" m m 28000 30000
           [(29000, AskBlocked); (29001, Evaluate (FixedWindow 10 10000));
            (29500, Evaluate (SlidingWindow 10 10000));
            (29998, Evaluate (TokenBucket 5 10000 10)); (29999, AskBlocked)]).
  - vm_compute. reflexivity.
  - repeat (constructor; [simpl; lia|]). constructor.
Defined.

(** ** C3: reads and expiry *)

(** C3 at its failing input: a key incremented and given
    [expire (key, 100)] at the instant 1000 is still returned by [get] at the
    instant 1101, after its [expireAt] of 1100 has passed, and [get] leaves
    the entry in the map. *)
Lemma get_returns_expired_entry :
  let m1 := (Cache.incr "k" 1000 ∅).2 in
  let m2 := (Cache.expire "k" 100 1000 m1).2 in
  m2 !! "k" = Some {| value := 1; expireAt := Some 1100 |} ∧
  Cache.get "k" 1101 m2 = (inr (Some 1), m2) ∧
  Cache.get "k" 1101 m2 ≠ (inr None, delete "k" m2).
Proof.
  vm_compute. split; [reflexivity|]. split; [reflexivity|]. discriminate.
Qed.

(** C3, as the code has it.  [get] returns absent for a missing key, but
    it does not look at [expireAt] and deletes nothing: a key with a
    non-zero count that was given [expire (key, duration)] at [now] is still
    returned, unchanged, at any later instant, where [incr] on the same map
    takes the lapsed entry for absent.  The expired entry is removed by the
    sweep of the next [incr] on any key made at or after [now + duration]:
    another key leaves it absent, and the key itself starts again at 1. *)
Theorem get_ignores_expiry_incr_sweeps (key key' : string)
    (m : gmap string Entry) (e : Entry) (now duration later : Z) :
  m !! key = Some e → value e ≠ 0 →
  now + duration ≠ 0 → now + duration ≤ later →
  (∀ t m', m' !! key = None → Cache.get key t m' = (inr None, m')) ∧
  ∃ m1, Cache.expire key duration now m = (inr tt, m1) ∧
    Cache.get key later m1 = (inr (Some (value e)), m1) ∧
    ∃ v m2, Cache.incr key' later m1 = (inr v, m2) ∧
      (key' ≠ key → m2 !! key = None) ∧
      (key' = key →
       v = 1 ∧ m2 !! key = Some {| value := 1; expireAt := Some 0 |}).
Proof.
  intros Hm Hv Hnz Hlater. split.
  { intros t m' Hnone. by rewrite get_run, Hnone. }
  rewrite expire_run, Hm. eexists. split; [reflexivity|].
  rewrite get_run, lookup_insert_eq. cbn [value].
  rewrite (proj2 (Z.eqb_neq _ _) Hv). split; [reflexivity|].
  rewrite incr_run. cbv zeta. do 2 eexists. split; [reflexivity|].
  assert (sweep later
            (<[key := {| value := value e;
                         expireAt := Some (now + duration) |}]> m) !! key
          = None) as Hswept.
  { rewrite sweep_lookup, lookup_insert_eq. unfold expired. simpl.
    rewrite (proj2 (Z.eqb_neq _ _) Hnz). simpl.
    by rewrite bool_decide_eq_true_2. }
  split.
  - intros Hne. by rewrite lookup_insert_ne.
  - intros ->. rewrite Hswept. by rewrite lookup_insert_eq.
Qed.

(** C3 at [expire (key, 100)] and the instant [now + 101]. *)
Lemma get_ignores_expiry_incr_sweeps_witness :
  let m : gmap string Entry :=
    <["k" := {| value := 1; expireAt := Some 0 |}]> ∅ in
  (∀ t m', m' !! "k" = None → Cache.get "k" t m' = (inr None, m')) ∧
  ∃ m1, Cache.expire "k" 100 1000 m = (inr tt, m1) ∧
    Cache.get "k" 1101 m1 = (inr (Some 1), m1) ∧
    ∃ v m2, Cache.incr "other" 1101 m1 = (inr v, m2) ∧
      ("other" ≠ "k" → m2 !! "k" = None) ∧
      ("other" = "k" →
       v = 1 ∧ m2 !! "k" = Some {| value := 1; expireAt := Some 0 |}).
Proof.
  intros m.
  apply (get_ignores_expiry_incr_sweeps "k" "other" m
           {| value := 1; expireAt := Some 0 |} 1000 100 1101).
  - reflexivity.
  - simpl. lia.
  - lia.
  - lia.
Defined.

(** ** C4: the verdict of the fixed window *)

(** C4, as the code has it.  On a call that is not fast-rejected,
    [fixedWindow] returns [success = (count <= tokens)] and
    [remaining = max (0, tokens - count)] for the [count] that [incr]
    returned, but its [reset] is the 0 that came with the negative answer of
    [isBlocked], not [(bucket + 1) * windowDuration]: that instant is only
    stored as [resetNew] in the block record. *)
Theorem fixedWindow_verdict_fields (tokens w now : Z) (identifier : string)
    (m m1 m2 : gmap string Entry) (r0 count : Z) :
  Cache.isBlocked identifier now m = (inr (false, r0), m1) →
  Cache.incr (join_key identifier (now / w)) now m1 = (inr count, m2) →
  ∃ ctx',
    RegionRatelimit.fixedWindow tokens w now {| cache := Some m |} identifier =
    (inr {| success := count <=? tokens; limit := tokens;
            remaining := Num (Z.max 0 (tokens - count)); reset := 0 |}, ctx').
Proof.
  intros Hb Hincr. rewrite incr_run in Hincr. cbv zeta in Hincr.
  injection Hincr as <- _.
  rewrite (fixedWindow_not_blocked _ _ _ _ _ _ _ Hb). cbv zeta.
  eexists. reflexivity.
Qed.

(** C4 at limit 10, window 10,000 ms, the instant 25,000 and the empty
    cache: the bucket is 2 and the next bucket starts at 30,000, yet the
    verdict carries [reset = 0]. *)
Lemma fixedWindow_verdict_fields_witness :
  (25000 / 10000 + 1) * 10000 = 30000 ∧
  ∃ ctx',
    RegionRatelimit.fixedWindow 10 10000 25000 {| cache := Some ∅ |} "X" =
    (inr {| success := true; limit := 10; remaining := Num 9; reset := 0 |},
     ctx').
Proof.
  split; [reflexivity|].
  apply (fixedWindow_verdict_fields 10 10000 25000 "X" ∅ ∅
           (<["X:2" := {| value := 1; expireAt := Some 0 |}]> ∅) 0 1).
  - reflexivity.
  - vm_compute. reflexivity.
Defined.

(** ** C5: the weight of the previous window *)

Lemma Qfloor_weight (a c r : Z) :
  c ≠ 0 →
  Qfloor ((1 - inject_Z a / inject_Z c) * inject_Z r) = ((c - a) * r) / c.
Proof.
  intros Hc. rewrite Zdiv_Qdiv. apply Qfloor_comp.
  rewrite inject_Z_mult. unfold Z.sub. rewrite inject_Z_plus, inject_Z_opp.
  field. intros H. apply Hc. unfold Qeq in H. simpl in H. lia.
Qed.

(** The weight of the code on integers: for a window index [c] other than
    0 it is [floor ((c - now mod c) * prev / c)]. *)
Lemma weightedPrevious_integer (now c prev : Z) :
  c ≠ 0 →
  RegionRatelimit.weightedPrevious now c prev =
  Num (((c - now `mod` c) * prev) / c).
Proof.
  intros Hc. unfold RegionRatelimit.weightedPrevious,
    RegionRatelimit.percentageInCurrent.
  rewrite (proj2 (Z.eqb_neq _ _) Hc). by rewrite Qfloor_weight.
Qed.

(** The weight of the specification on integers:
    [floor ((w - now mod w) * prev / w)] for the window size [w]. *)
Lemma weightedPrevious_spec_integer (now w prev : Z) :
  w ≠ 0 →
  weightedPrevious_spec now w prev = ((w - now `mod` w) * prev) / w.
Proof.
  intros Hw. unfold weightedPrevious_spec, elapsedFraction_spec.
  by apply Qfloor_weight.
Qed.

(** C5, as the code has it.  The elapsed fraction is computed from the window
    index, [(now % currentWindow) / currentWindow], not from the window size.
    With a window of 10,000 ms, four requests counted in the window 1 and a
    call at 25,000 ms (half of the window 2 elapsed), the code weights the
    previous window by [1 - (25000 mod 2) / 2 = 1] and counts all 4 requests
    where the formula of the specification counts [floor (0.5 * 4) = 2]; the
    verdict has [remaining = 10 - (1 + 4) = 5] instead of 7.  Every
    intermediate value of this run is an integer, so the exact arithmetic of
    the model is the floating-point arithmetic of the code. *)
Theorem slidingWindow_weights_by_window_index :
  RegionRatelimit.weightedPrevious 25000 (25000 / 10000) 4 = Num 4 ∧
  weightedPrevious_spec 25000 10000 4 = 2 ∧
  let ctx := (run_calls (RegionRatelimit.slidingWindow 10 10000) "X"
                [15000; 16000; 17000; 18000] {| cache := Some ∅ |}).2 in
  (RegionRatelimit.slidingWindow 10 10000 25000 ctx "X").1 =
  inr {| success := true; limit := 10; remaining := Num 5; reset := 30000 |}.
Proof. vm_compute. repeat split; reflexivity. Qed.

(** The division by the window index has a second effect: in the first
    window (index 0) the fraction is [NaN], the request is rejected with
    [remaining = NaN] and the identifier is blocked. *)
Lemma slidingWindow_first_window :
  RegionRatelimit.slidingWindow 10 10000 5000 {| cache := Some ∅ |} "X" =
  (inr {| success := false; limit := 10; remaining := NaN; reset := 10000 |},
   {| cache := Some (<["X" := {| value := 10000; expireAt := None |}]>
                       (<["X:0" := {| value := 1;
                                      expireAt := Some 26000 |}]> ∅)) |}).
Proof. vm_compute. reflexivity. Qed.

(** ** C6: the token bucket *)

(** C6, as the code has it.  [tokenBucket] computes no refill and stores
    nothing: from the empty cache every call, whatever their number and
    their instants, is admitted with [remaining = 0] and [reset = 0], and
    the cache is still empty afterwards.  With one token per 10,000 ms and
    [maxTokens = 1], a second call at the instant of the first finds the
    bucket of the specification empty ([tokensNow = min (1, 0 + 0) = 0]) and
    is rejected by it, where the code admits it. *)
Theorem tokenBucket_always_admits (refillRate intervalDuration maxTokens : Z)
    (identifier : string) (ts : list Z) :
  run_calls (RegionRatelimit.tokenBucket refillRate intervalDuration maxTokens)
    identifier ts {| cache := Some ∅ |} =
  ((λ _, inr {| success := true; limit := maxTokens;
                remaining := Num 0; reset := 0 |}) <$> ts,
   {| cache := Some ∅ |}) ∧
  tokenBucket_success_spec (tokensNow_spec 1 1 10000 0 0) = false.
Proof.
  split; [|reflexivity].
  induction ts as [|t ts IH]; [done|].
  cbn [run_calls].
  rewrite (tokenBucket_not_blocked _ _ _ t identifier ∅ 0 ∅)
    by (by rewrite isBlocked_run, lookup_empty).
  by rewrite IH.
Qed.

(** ** C7: the range of [remaining] *)

Section Range.

Implicit Types (identifier : string) (m : gmap string Entry) (now : Z).

Lemma value_or_0_nonneg m key :
  counters_nonneg m → 0 ≤ Cache.value_or_0 (m !! key).
Proof.
  intros Hm. destruct (m !! key) as [e|] eqn:He; [|done].
  simpl. by apply (Hm key e).
Qed.

Lemma sweep_value_or_0_nonneg now m key :
  counters_nonneg m → 0 ≤ Cache.value_or_0 (sweep now m !! key).
Proof.
  intros Hm. rewrite sweep_lookup.
  destruct (m !! key) as [e|] eqn:He; [|done].
  destruct (expired now e); [done|]. simpl. by apply (Hm key e).
Qed.

(** What does hold: on a cache whose stored values are non-negative, and
    past the first window for the sliding window, the three algorithms that
    consult the block index return [remaining] in [[0, limit]]. *)
Lemma remaining_in_range (l : limiter) now identifier m v ctx' :
  0 ≤ limit_of l → 0 ≤ now → counters_nonneg m →
  (∀ tokens w, l = SlidingWindow tokens w → 1 ≤ now / w) →
  algorithm_of l now {| cache := Some m |} identifier = (inr v, ctx') →
  ∃ r, remaining v = Num r ∧ 0 ≤ r ≤ limit v.
Proof.
  intros Hlim Hnow Hm Hidx.
  destruct (isBlocked_cases identifier now m) as [[R Hb]|(m1 & Hb & Hsub)].
  { destruct (isBlocked_true _ _ _ _ _ Hb) as (_ & He & Hle).
    rewrite (algorithm_fast_reject identifier m R He l now Hle).
    intros [= <- <-]. simpl. exists 0. split; [done|lia]. }
  assert (counters_nonneg m1) as Hm1.
  { intros key e He. apply (Hm key e). by apply Hsub. }
  destruct l as [tokens w|tokens w|rr ii mx]; simpl in *.
  - rewrite (fixedWindow_not_blocked _ _ _ _ _ _ _ Hb). cbv zeta.
    intros [= <- <-]. simpl. eexists. split; [done|].
    pose proof (sweep_value_or_0_nonneg now m1
                  (join_key identifier (now / w)) Hm1). lia.
  - destruct (slidingWindow_not_blocked tokens w now identifier m 0 m1 Hb)
      as (m' & Hrun).
    rewrite Hrun. intros [= <- <-]. simpl.
    specialize (Hidx tokens w eq_refl).
    rewrite weightedPrevious_integer by lia. simpl.
    eexists. split; [done|].
    pose proof (sweep_value_or_0_nonneg now m1
                  (join_key identifier (now / w)) Hm1) as Hcur.
    pose proof (value_or_0_nonneg m1
                  (join_key identifier (now / w - 1)) Hm1) as Hprev.
    pose proof (Z.mod_pos_bound now (now / w) ltac:(lia)) as Hmod.
    assert (0 ≤ ((now / w - now `mod` (now / w))
                 * Cache.value_or_0 (m1 !! join_key identifier (now / w - 1)))
                / (now / w)).
    { apply Z.div_pos; [|lia]. apply Z.mul_nonneg_nonneg; lia. }
    lia.
  - rewrite (tokenBucket_not_blocked _ _ _ _ _ _ _ _ Hb).
    intros [= <- <-]. simpl. exists 0. split; [done|lia].
Qed.

End Range.

(** C7, as the code has it.  [cachedFixedWindow] returns
    [tokens - cachedTokensAfterUpdate] without the clamp of its siblings: on
    a counter that is present, non-zero and not expired, [remaining] is
    [tokens - (value + 1)], negative as soon as the counter has reached the
    limit. *)
Theorem cachedFixedWindow_remaining_unclamped (tokens w now : Z)
    (identifier : string) (m : gmap string Entry) (e : Entry) :
  m !! join_key identifier (now / w) = Some e →
  value e ≠ 0 → expired now e = false →
  ∃ ctx',
    RegionRatelimit.cachedFixedWindow tokens w now {| cache := Some m |}
      identifier =
    (inr {| success := value e + 1 <? tokens; limit := tokens;
            remaining := Num (tokens - (value e + 1));
            reset := (now / w + 1) * w |}, ctx').
Proof.
  intros Hm Hv Hexp.
  unfold RegionRatelimit.cachedFixedWindow, on_cache. simpl.
  rewrite bind_run, get_run, Hm. rewrite (proj2 (Z.eqb_neq _ _) Hv).
  rewrite bool_decide_eq_true_2 by eauto.
  rewrite bind_run, incr_run. cbv zeta.
  rewrite sweep_lookup, Hm, Hexp. simpl. eexists. reflexivity.
Qed.

(** C7 on a cache shared with a fixed window of the same limit 1: after two
    calls of [fixedWindow] the counter ["X:2"] holds 2, and
    [cachedFixedWindow] returns [remaining = -2]. *)
Lemma cachedFixedWindow_remaining_unclamped_witness :
  let m : gmap string Entry :=
    <["X" := {| value := 30000; expireAt := None |}]>
      (<["X:2" := {| value := 2; expireAt := Some 30001 |}]> ∅) in
  (run_calls (RegionRatelimit.fixedWindow 1 10000) "X" [20000; 20001]
     {| cache := Some ∅ |}).2 = {| cache := Some m |} ∧
  ∃ ctx',
    RegionRatelimit.cachedFixedWindow 1 10000 20002 {| cache := Some m |} "X" =
    (inr {| success := false; limit := 1; remaining := Num (-2);
            reset := 30000 |}, ctx').
Proof.
  intros m. split; [vm_compute; reflexivity|].
  apply (cachedFixedWindow_remaining_unclamped 1 10000 20002 "X" m
           {| value := 2; expireAt := Some 30001 |}).
  - vm_compute. reflexivity.
  - simpl. lia.
  - vm_compute. reflexivity.
Defined.

(** ** C8: misuse *)




(** ** C9: the expiry of the window key *)

(** C9, as the code has it.  Every call of [fixedWindow] that is not
    fast-rejected sets the [expireAt] of the window key to
    [now + windowDuration], whether or not the key was just created. *)
Theorem fixedWindow_expire_on_every_call (tokens w now : Z)
    (identifier : string) (m m1 : gmap string Entry) (r0 : Z) :
  Cache.isBlocked identifier now m = (inr (false, r0), m1) →
  ∃ v m' e,
    RegionRatelimit.fixedWindow tokens w now {| cache := Some m |} identifier =
      (inr v, {| cache := Some m' |}) ∧
    m' !! join_key identifier (now / w) = Some e ∧
    expireAt e = Some (now + w).
Proof.
  intros Hb. rewrite (fixedWindow_not_blocked _ _ _ _ _ _ _ Hb). cbv zeta.
  do 3 eexists. split; [reflexivity|].
  destruct (_ <=? tokens).
  - rewrite lookup_insert_eq. split; reflexivity.
  - rewrite lookup_insert_ne by (intros H; symmetry in H;
                                 by apply join_key_ne in H).
    rewrite lookup_insert_eq. split; reflexivity.
Qed.

(** C9 at a key that is touched for the second time: the counter ["X:2"],
    created at 20,000 ms with [expireAt = 30000], is given
    [expireAt = 35000] by the call at 25,000 ms. *)
Lemma fixedWindow_expire_on_every_call_witness :
  let m : gmap string Entry :=
    <["X:2" := {| value := 1; expireAt := Some 30000 |}]> ∅ in
  (RegionRatelimit.fixedWindow 10 10000 20000 {| cache := Some ∅ |} "X").2 =
    {| cache := Some m |} ∧
  ∃ v m' e,
    RegionRatelimit.fixedWindow 10 10000 25000 {| cache := Some m |} "X" =
      (inr v, {| cache := Some m' |}) ∧
    m' !! "X:2" = Some e ∧
    expireAt e = Some 35000.
Proof.
  intros m. split; [vm_compute; reflexivity|].
  apply (fixedWindow_expire_on_every_call 10 10000 25000 "X" m m 0).
  vm_compute. reflexivity.
Defined.

(** ** C10: a stored 0 reads as absent *)

(** C10. An entry whose value is 0 reads as absent, whatever its
    [expireAt]; [get] never returns 0. *)
Theorem get_never_zero (key : string) (m : gmap string Entry) (e : Entry)
    (now : Z) :
  m !! key = Some e → value e = 0 →
  Cache.get key now m = (inr None, m) ∧
  ∀ key' t m', (Cache.get key' t m').1 ≠ inr (Some 0).
Proof.
  intros Hm Hv. split.
  - by rewrite get_run, Hm, Hv.
  - intros key' t m'. rewrite get_run. simpl.
    destruct (m' !! key') as [e'|]; [|discriminate].
    destruct (value e' =? 0) eqn:Hz; [discriminate|].
    intros [= He]. rewrite He in Hz. discriminate.
Qed.

(** C10 at the entry that [cachedFixedWindow] stores on a miss. *)
Lemma get_never_zero_witness :
  let m : gmap string Entry :=
    <["X:2" := {| value := 0; expireAt := Some 0 |}]> ∅ in
  Cache.get "X:2" 20000 m = (inr None, m) ∧
  ∀ key' t m', (Cache.get key' t m').1 ≠ inr (Some 0).
Proof.
  intros m.
  apply (get_never_zero "X:2" m {| value := 0; expireAt := Some 0 |} 20000).
  - reflexivity.
  - reflexivity.
Defined.

(** * Further properties of the cache *)

Section CacheProperties.

Implicit Types (key identifier : string) (m : gmap string Entry)
               (now : Z) (e : Entry).

Lemma expired_spec now e :
  expired now e = true ↔ ∃ x, expireAt e = Some x ∧ x ≠ 0 ∧ x ≤ now.
Proof.
  unfold expired. destruct (expireAt e) as [x|]; simpl.
  - rewrite andb_true_iff, negb_true_iff, Z.eqb_neq, bool_decide_eq_true.
    split.
    + intros [? ?]. eauto.
    + intros (? & [= <-] & ? & ?). done.
  - split; [done|]. by intros (? & ? & _).
Qed.

Lemma expired_mono now later e :
  now ≤ later → expired now e = true → expired later e = true.
Proof.
  intros Hle. rewrite !expired_spec. intros (x & ? & ? & ?).
  exists x. repeat split; [done..|lia].
Qed.

(** X1. [cleanup] at the instant [now] deletes exactly the entries whose
    [expireAt] is set, is not 0 and is at or before [now]; it keeps every
    other entry as it is and adds none. *)
Theorem cleanup_removes_exactly_expired (now : Z) (m : gmap string Entry)
    (key : string) :
  ∃ m', Cache.cleanup now m = (inr tt, m') ∧
    m' !! key =
    match m !! key with
    | Some e =>
      match expireAt e with
      | Some x => if bool_decide (x ≠ 0 ∧ x ≤ now) then None else Some e
      | None => Some e
      end
    | None => None
    end.
Proof.
  exists (sweep now m). split; [apply cleanup_run|].
  rewrite sweep_lookup. destruct (m !! key) as [e|]; [|done].
  unfold expired. destruct (expireAt e) as [x|]; simpl; [|done].
  destruct (Z.eqb_spec x 0) as [->|Hx]; simpl;
    repeat case_bool_decide; first [done | exfalso; intuition lia].
Qed.

Lemma sweep_sweep now later m :
  now ≤ later → sweep later (sweep now m) = sweep later m.
Proof.
  intros Hle. apply map_eq. intros key. rewrite !sweep_lookup.
  destruct (m !! key) as [e|]; [|done].
  destruct (expired now e) eqn:He; [|done].
  by rewrite (expired_mono now later e Hle He).
Qed.

(** X2. A sweep absorbs every earlier one: [cleanup] at [now] followed by
    [cleanup] at a later (or the same) instant leaves the map that the
    second [cleanup] alone leaves.  In particular [cleanup] is
    idempotent. *)
Theorem cleanup_absorbs_earlier (now later : Z) (m : gmap string Entry) :
  now ≤ later →
  (Cache.cleanup later (Cache.cleanup now m).2).2 = (Cache.cleanup later m).2 ∧
  (Cache.cleanup now (Cache.cleanup now m).2).2 = (Cache.cleanup now m).2.
Proof.
  intros Hle. rewrite !cleanup_run. simpl.
  split; by apply sweep_sweep.
Qed.

Lemma cleanup_absorbs_earlier_witness :
  let m : gmap string Entry :=
    <["a" := {| value := 3; expireAt := Some 100 |}]>
      (<["b" := {| value := 4; expireAt := Some 200 |}]>
         (<["c" := {| value := 5; expireAt := Some 0 |}]> ∅)) in
  (Cache.cleanup 250 (Cache.cleanup 150 m).2).2 = (Cache.cleanup 250 m).2 ∧
  (Cache.cleanup 150 (Cache.cleanup 150 m).2).2 = (Cache.cleanup 150 m).2.
Proof.
  intros m. apply (cleanup_absorbs_earlier 150 250 m). lia.
Defined.

(** X3. [incr] on a key that is in the map: if the entry has expired at
    [now], the count starts again at 1 and the new entry has [expireAt = 0],
    which never expires; otherwise the count is the stored value plus 1 and
    the entry keeps its [expireAt] (0 if it had none). *)
Theorem incr_existing_key (key : string) (m : gmap string Entry) (e : Entry)
    (now : Z) :
  m !! key = Some e →
  ∃ m', Cache.incr key now m =
          (inr (if expired now e then 1 else value e + 1), m') ∧
    m' !! key =
      Some {| value := if expired now e then 1 else value e + 1;
              expireAt := Some (if expired now e then 0
                                else default 0 (expireAt e)) |}.
Proof.
  intros Hm. rewrite incr_run. cbv zeta. rewrite sweep_lookup, Hm.
  destruct (expired now e); eexists; (split; [reflexivity|]);
    rewrite lookup_insert_eq; simpl; [done|].
  by destruct e as [v [x|]].
Qed.

Lemma incr_existing_key_witness :
  let m : gmap string Entry :=
    <["X:2" := {| value := 7; expireAt := Some 30000 |}]> ∅ in
  (∃ m', Cache.incr "X:2" 29999 m = (inr 8, m') ∧
     m' !! "X:2" = Some {| value := 8; expireAt := Some 30000 |}) ∧
  (∃ m', Cache.incr "X:2" 30000 m = (inr 1, m') ∧
     m' !! "X:2" = Some {| value := 1; expireAt := Some 0 |}).
Proof.
  intros m. split.
  - apply (incr_existing_key "X:2" m
             {| value := 7; expireAt := Some 30000 |} 29999). reflexivity.
  - apply (incr_existing_key "X:2" m
             {| value := 7; expireAt := Some 30000 |} 30000). reflexivity.
Defined.

Lemma incr_all_from key ts :
  ∀ m k,
    0 ≤ k →
    (k = 0 ∧ m !! key = None ∨
     m !! key = Some {| value := k; expireAt := Some 0 |}) →
    ∃ m', incr_all key ts m = (inr <$> seqZ (k + 1) (Z.of_nat (length ts)), m') ∧
      (k + Z.of_nat (length ts) = 0 ∧ m' !! key = None ∨
       m' !! key = Some {| value := k + Z.of_nat (length ts); expireAt := Some 0 |}).
Proof.
  induction ts as [|t ts IH]; intros m k Hk Hm.
  - exists m. simpl. split; [done|]. by rewrite Z.add_0_r.
  - cbn [incr_all]. rewrite incr_run. cbv zeta.
    assert (Cache.value_or_0 (sweep t m !! key) = k ∧
            Cache.expireAt_or_0 (sweep t m !! key) = 0) as [-> ->].
    { rewrite sweep_lookup. destruct Hm as [[-> ->]| ->]; done. }
    destruct (IH (<[key := {| value := k + 1; expireAt := Some 0 |}]>
                    (sweep t m)) (k + 1)) as (m' & -> & Hm'); [lia| |].
    { right. by rewrite lookup_insert_eq. }
    exists m'. split.
    + rewrite (seqZ_cons (k + 1)) by (simpl length; lia).
      rewrite fmap_cons.
      replace (Z.pred (Z.of_nat (length (t :: ts))))
        with (Z.of_nat (length ts)) by (simpl length; lia).
      by replace (Z.succ (k + 1)) with (k + 1 + 1) by lia.
    + right. destruct Hm' as [[? _]| ->]; [lia|].
      do 2 f_equal. simpl length. lia.
Qed.

(** X4. A counter that is only ever incremented never expires: starting
    from a map without the key, successive [incr]s at arbitrary instants
    return 1, 2, 3, ... and leave the count with [expireAt = 0]. *)
Theorem incr_counts_without_expiry (key : string) (ts : list Z)
    (m : gmap string Entry) :
  m !! key = None → ts ≠ [] →
  ∃ m', incr_all key ts m = (inr <$> seqZ 1 (Z.of_nat (length ts)), m') ∧
    m' !! key = Some {| value := Z.of_nat (length ts); expireAt := Some 0 |}.
Proof.
  intros Hm Hts.
  destruct (incr_all_from key ts m 0) as (m' & Hrun & Hm'); [lia|by left|].
  exists m'. split; [done|].
  destruct Hm' as [[Hlen _]| ->]; [|by rewrite Z.add_0_l].
  destruct ts; [done|]. simpl in Hlen. lia.
Qed.

Lemma incr_counts_without_expiry_witness :
  ∃ m', incr_all "k" [5; 1000000; 17; 99999999] ∅ =
          ([inr 1; inr 2; inr 3; inr 4], m') ∧
    m' !! "k" = Some {| value := 4; expireAt := Some 0 |}.
Proof.
  apply (incr_counts_without_expiry "k" [5; 1000000; 17; 99999999] ∅).
  - reflexivity.
  - discriminate.
Defined.

(** X5. [blockUntil] followed by [isBlocked]: the identifier is blocked
    with the stored instant up to and including that instant, and [isBlocked]
    then leaves the map alone; strictly after it the identifier is not
    blocked and the record is removed. *)
Theorem blockUntil_then_isBlocked (identifier : string)
    (m : gmap string Entry) (R t now : Z) :
  let m1 := (Cache.blockUntil identifier R t m).2 in
  Cache.isBlocked identifier now m1 =
  if bool_decide (now ≤ R) then (inr (true, R), m1)
  else (inr (false, 0), delete identifier m).
Proof.
  intros m1. unfold m1. rewrite blockUntil_run. simpl.
  rewrite isBlocked_run, lookup_insert_eq. simpl.
  destruct (decide (now ≤ R)).
  - rewrite bool_decide_eq_true_2 by done.
    by rewrite (proj2 (Z.ltb_ge _ _)) by done.
  - rewrite bool_decide_eq_false_2 by done.
    rewrite (proj2 (Z.ltb_lt _ _)) by lia.
    by rewrite delete_insert_eq.
Qed.

(** X6. [set] followed by [get]: the value written is read back, except
    that a written 0 reads as absent; [set] keeps the [expireAt] of an entry
    that has one and gives 0 to any other, and changes no other key. *)
Theorem set_then_get (key : string) (v now : Z) (m : gmap string Entry) :
  ∃ m', Cache.set key v now m = (inr tt, m') ∧
    Cache.get key now m' = (inr (if v =? 0 then None else Some v), m') ∧
    m' !! key =
      Some {| value := v;
              expireAt := Some (default 0 (m !! key ≫= expireAt)) |} ∧
    ∀ key', key' ≠ key → m' !! key' = m !! key'.
Proof.
  rewrite set_run. eexists. split; [reflexivity|].
  rewrite get_run, lookup_insert_eq. simpl. split; [done|]. split.
  - repeat f_equal. by destruct (m !! key) as [[? [?|]]|].
  - intros key' Hne. by rewrite lookup_insert_ne.
Qed.

(** X7. The lifetime that [expire] gives: after [expire (key, duration)] at
    [now] (with [now + duration] other than 0), the entry keeps its value,
    survives every [cleanup] made strictly before [now + duration] and is
    deleted by any [cleanup] made at that instant or later. *)
Theorem expire_sets_lifetime (key : string) (m : gmap string Entry)
    (e : Entry) (now duration t : Z) :
  m !! key = Some e → now + duration ≠ 0 →
  ∃ m1, Cache.expire key duration now m = (inr tt, m1) ∧
    (Cache.cleanup t m1).2 !! key =
    if bool_decide (t < now + duration)
    then Some {| value := value e; expireAt := Some (now + duration) |}
    else None.
Proof.
  intros Hm Hnz. rewrite expire_run, Hm. eexists. split; [reflexivity|].
  rewrite cleanup_run. simpl. rewrite sweep_lookup, lookup_insert_eq.
  unfold expired. simpl. rewrite (proj2 (Z.eqb_neq _ _) Hnz). simpl.
  repeat case_bool_decide; first [done | lia].
Qed.

Lemma expire_sets_lifetime_witness :
  let m : gmap string Entry :=
    <["X:2" := {| value := 3; expireAt := Some 0 |}]> ∅ in
  (∃ m1, Cache.expire "X:2" 10000 20000 m = (inr tt, m1) ∧
     (Cache.cleanup 29999 m1).2 !! "X:2" =
     Some {| value := 3; expireAt := Some 30000 |}) ∧
  (∃ m1, Cache.expire "X:2" 10000 20000 m = (inr tt, m1) ∧
     (Cache.cleanup 30000 m1).2 !! "X:2" = None).
Proof.
  intros m. split.
  - apply (expire_sets_lifetime "X:2" m {| value := 3; expireAt := Some 0 |}
             20000 10000 29999); [reflexivity | lia].
  - apply (expire_sets_lifetime "X:2" m {| value := 3; expireAt := Some 0 |}
             20000 10000 30000); [reflexivity | lia].
Defined.

End CacheProperties.

(** * Further properties of the algorithms *)

Section AlgorithmProperties.

Implicit Types (key identifier : string) (m : gmap string Entry)
               (now : Z) (e : Entry).

Lemma join_key_inj identifier n n' :
  join_key identifier n = join_key identifier n' → n = n'.
Proof.
  unfold join_key. intros H.
  apply (inj (String.append identifier)) in H.
  apply (inj (String.append ":")) in H.
  by apply (inj pretty) in H.
Qed.

(** The two outcomes of [isBlocked], with the map that each leaves. *)
Lemma isBlocked_outcome identifier now m :
  (∃ e, m !! identifier = Some e ∧ now ≤ value e ∧
        Cache.isBlocked identifier now m = (inr (true, value e), m)) ∨
  (∃ m1, Cache.isBlocked identifier now m = (inr (false, 0), m1) ∧
         (m1 = m ∨ m1 = delete identifier m) ∧ m1 !! identifier = None).
Proof.
  rewrite isBlocked_run. destruct (m !! identifier) as [e|] eqn:He.
  - destruct (value e <? now) eqn:Hlt.
    + right. eexists. split; [done|]. split; [by right|].
      by rewrite lookup_delete_eq.
    + left. exists e. split; [done|]. split; [lia|done].
  - right. exists m. split; [done|]. split; [by left|done].
Qed.

(** A key of the swept map, against the map before the sweep. *)
Lemma sweep_unchanged_or_expired now m key :
  sweep now m !! key = m !! key ∨
  (sweep now m !! key = None ∧ ∃ e, m !! key = Some e ∧ expired now e = true).
Proof.
  rewrite sweep_lookup. destruct (m !! key) as [e|]; [|by left].
  destruct (expired now e) eqn:He; [right; eauto|by left].
Qed.

(** X8. [fixedWindow] with a cache never raises, and apart from the block
    record of its identifier and the counter of the current bucket it
    writes nothing: every other entry of the cache is as before, or was
    expired at [now] and has been swept; no other entry is created. *)
Theorem fixedWindow_touches_only_its_keys (tokens w now : Z)
    (identifier : string) (m : gmap string Entry) :
  ∃ v m',
    RegionRatelimit.fixedWindow tokens w now {| cache := Some m |} identifier =
      (inr v, {| cache := Some m' |}) ∧
    ∀ key, key ≠ identifier → key ≠ join_key identifier (now / w) →
      m' !! key = m !! key ∨
      (m' !! key = None ∧ ∃ e, m !! key = Some e ∧ expired now e = true).
Proof.
  destruct (isBlocked_outcome identifier now m)
    as [(e & He & Hle & Hb)|(m1 & Hb & Hm1 & _)].
  - pose proof (algorithm_fast_reject identifier m (value e)
                  ltac:(eauto) (FixedWindow tokens w) now Hle) as Hrun.
    simpl in Hrun. rewrite Hrun. do 2 eexists. split; [reflexivity|].
    intros. by left.
  - rewrite (fixedWindow_not_blocked _ _ _ _ _ _ _ Hb). cbv zeta.
    do 2 eexists. split; [reflexivity|]. intros key Hid Hkey.
    assert (m1 !! key = m !! key) as Hsame.
    { destruct Hm1 as [->| ->]; [done|]. by rewrite lookup_delete_ne. }
    destruct (_ <=? tokens).
    + rewrite lookup_insert_ne by done.
      destruct (sweep_unchanged_or_expired now m1 key) as [->|(-> & e & ? & ?)];
        [by left|right]. rewrite <- Hsame. eauto.
    + rewrite !lookup_insert_ne by done.
      destruct (sweep_unchanged_or_expired now m1 key) as [->|(-> & e & ? & ?)];
        [by left|right]. rewrite <- Hsame. eauto.
Qed.

(** X9. The block of a fixed window lifts strictly after its reset
    instant.  With a block record until [(b + 1) * w], the start of the
    bucket [b + 1], a call made exactly at that instant is still rejected
    from the record although it falls into the new bucket; a call made
    later in the bucket [b + 1], on a fresh counter, is counted as the
    first call of the bucket and, when admitted, leaves no block record. *)
Theorem fixedWindow_block_lifts_after_reset (tokens w b now : Z)
    (identifier : string) (m : gmap string Entry) (e : Entry) :
  0 < w →
  m !! identifier = Some e → value e = (b + 1) * w →
  m !! join_key identifier (b + 1) = None →
  (b + 1) * w < now → now / w = b + 1 →
  ((b + 1) * w) / w = b + 1 ∧
  RegionRatelimit.fixedWindow tokens w ((b + 1) * w) {| cache := Some m |}
    identifier =
    (short_circuited tokens ((b + 1) * w), {| cache := Some m |}) ∧
  ∃ m',
    RegionRatelimit.fixedWindow tokens w now {| cache := Some m |} identifier =
      (inr {| success := 1 <=? tokens; limit := tokens;
              remaining := Num (Z.max 0 (tokens - 1)); reset := 0 |},
       {| cache := Some m' |}) ∧
    (1 ≤ tokens → m' !! identifier = None).
Proof.
  intros Hw He Hv Hkey Hnow Hb. split; [apply Z.div_mul; lia|]. split.
  - pose proof (algorithm_fast_reject identifier m ((b + 1) * w)
                  ltac:(eauto) (FixedWindow tokens w) ((b + 1) * w)
                  ltac:(lia)) as Hrun.
    simpl in Hrun. exact Hrun.
  - assert (Cache.isBlocked identifier now m =
            (inr (false, 0), delete identifier m)) as Hnb.
    { rewrite isBlocked_run, He, Hv.
      by rewrite (proj2 (Z.ltb_lt _ _)) by lia. }
    rewrite (fixedWindow_not_blocked _ _ _ _ _ _ _ Hnb). cbv zeta.
    rewrite Hb, sweep_lookup.
    rewrite lookup_delete_ne by (intros H; symmetry in H;
                                 by apply join_key_ne in H).
    rewrite Hkey. simpl.
    eexists. split; [reflexivity|]. intros Htok.
    rewrite (proj2 (Z.leb_le _ _)) by lia.
    rewrite lookup_insert_ne by apply join_key_ne.
    by rewrite sweep_lookup, lookup_delete_eq.
Qed.

Lemma fixedWindow_block_lifts_after_reset_witness :
  let m : gmap string Entry :=
    <["X" := {| value := 30000; expireAt := None |}]>
      (<["X:2" := {| value := 11; expireAt := Some 39999 |}]> ∅) in
  30000 / 10000 = 3 ∧
  RegionRatelimit.fixedWindow 10 10000 30000 {| cache := Some m |} "X" =
    (short_circuited 10 30000, {| cache := Some m |}) ∧
  ∃ m',
    RegionRatelimit.fixedWindow 10 10000 30001 {| cache := Some m |} "X" =
      (inr {| success := true; limit := 10;
              remaining := Num 9; reset := 0 |}, {| cache := Some m' |}) ∧
    (1 ≤ 10 → m' !! "X" = None).
Proof.
  intros m.
  apply (fixedWindow_block_lifts_after_reset 10 10000 2 30001 "X" m
           {| value := 30000; expireAt := None |}).
  - lia.
  - reflexivity.
  - reflexivity.
  - reflexivity.
  - lia.
  - reflexivity.
Defined.

(** X10. Window keys and block records share one map.  When the window key
    of an identifier that is not blocked is itself the block record of
    another identifier (one that ends in [":"] and the bucket number), with
    the reset instant [R], [fixedWindow] takes that instant for the count:
    the call counts [R + 1], and the other identifier's record is
    overwritten with [R + 1] and the expiry of a counter. *)
Theorem fixedWindow_counts_on_block_record (tokens w now R : Z)
    (identifier : string) (m : gmap string Entry) :
  m !! identifier = None →
  m !! join_key identifier (now / w) =
    Some {| value := R; expireAt := None |} →
  ∃ m',
    RegionRatelimit.fixedWindow tokens w now {| cache := Some m |} identifier =
      (inr {| success := R + 1 <=? tokens; limit := tokens;
              remaining := Num (Z.max 0 (tokens - (R + 1))); reset := 0 |},
       {| cache := Some m' |}) ∧
    m' !! join_key identifier (now / w) =
      Some {| value := R + 1; expireAt := Some (now + w) |}.
Proof.
  intros Hid Hkey.
  assert (Cache.isBlocked identifier now m = (inr (false, 0), m)) as Hnb.
  { by rewrite isBlocked_run, Hid. }
  rewrite (fixedWindow_not_blocked _ _ _ _ _ _ _ Hnb). cbv zeta.
  rewrite sweep_lookup, Hkey. simpl.
  eexists. split; [reflexivity|].
  destruct (R + 1 <=? tokens).
  - by rewrite lookup_insert_eq.
  - rewrite lookup_insert_ne by (intros H; symmetry in H;
                                 by apply join_key_ne in H).
    by rewrite lookup_insert_eq.
Qed.

Lemma fixedWindow_counts_on_block_record_witness :
  let m : gmap string Entry :=
    <["a:2" := {| value := 30000; expireAt := None |}]> ∅ in
  Cache.isBlocked "a:2" 25000 m = (inr (true, 30000), m) ∧
  ∃ m',
    RegionRatelimit.fixedWindow 10 10000 25000 {| cache := Some m |} "a" =
      (inr {| success := false; limit := 10;
              remaining := Num 0; reset := 0 |}, {| cache := Some m' |}) ∧
    m' !! "a:2" = Some {| value := 30001; expireAt := Some 35000 |}.
Proof.
  intros m. split; [vm_compute; reflexivity|].
  apply (fixedWindow_counts_on_block_record 10 10000 25000 30000 "a" m).
  - reflexivity.
  - reflexivity.
Defined.

(** [slidingWindow] past the block index, with the map it leaves: the
    counter of the current window after [incr] and, on the first touch,
    [expire]; on a rejection the block record on top. *)
Lemma slidingWindow_not_blocked_map tokens w now identifier m r0 m1 :
  Cache.isBlocked identifier now m = (inr (false, r0), m1) →
  let cur := join_key identifier (now / w) in
  let newValue := Cache.value_or_0 (sweep now m1 !! cur) + 1 in
  let prev := Cache.value_or_0 (m1 !! join_key identifier (now / w - 1)) in
  let remaining :=
    num_sub tokens
      (num_add newValue
         (RegionRatelimit.weightedPrevious now (now / w) prev)) in
  let m2 :=
    <[cur := {| value := newValue;
                expireAt :=
                  Some (if newValue =? 1 then now + (w * 2 + 1000)
                        else Cache.expireAt_or_0 (sweep now m1 !! cur)) |}]>
      (sweep now m1) in
  RegionRatelimit.slidingWindow tokens w now {| cache := Some m |}
    identifier =
  (inr {| success := num_ge0 remaining; limit := tokens;
          remaining := num_max0 remaining;
          reset := (now / w + 1) * w |},
   {| cache := Some (if num_ge0 remaining then m2
                     else <[identifier :=
                              {| value := (now / w + 1) * w;
                                 expireAt := None |}]> m2) |}).
Proof.
  intros Hb cur newValue prev remaining m2.
  unfold RegionRatelimit.slidingWindow, on_cache. simpl.
  rewrite bind_run, Hb. cbv beta iota.
  rewrite bind_run, get_run. cbv beta iota.
  rewrite bind_run, get_run. cbv beta iota.
  rewrite bind_run, incr_run. cbv beta iota zeta.
  rewrite default_get_value_or_0.
  fold cur. fold newValue. fold prev. fold remaining.
  rewrite bind_run. unfold m2.
  destruct (newValue =? 1).
  - rewrite expire_run, lookup_insert_eq. cbv beta iota. cbn [value].
    rewrite insert_insert_eq.
    rewrite bind_run. by destruct (num_ge0 remaining).
  - simpl. rewrite bind_run. by destruct (num_ge0 remaining).
Qed.

(** X11. [slidingWindow] with a cache never raises, and apart from the
    block record of its identifier and the counter of the current window it
    writes nothing.  In particular the counter of the previous window is
    only read: it is as before, or was expired at [now] and has been
    swept. *)
Theorem slidingWindow_touches_only_its_keys (tokens w now : Z)
    (identifier : string) (m : gmap string Entry) :
  ∃ v m',
    RegionRatelimit.slidingWindow tokens w now {| cache := Some m |}
      identifier = (inr v, {| cache := Some m' |}) ∧
    (∀ key, key ≠ identifier → key ≠ join_key identifier (now / w) →
       m' !! key = m !! key ∨
       (m' !! key = None ∧ ∃ e, m !! key = Some e ∧ expired now e = true)) ∧
    let previousKey := join_key identifier (now / w - 1) in
    m' !! previousKey = m !! previousKey ∨
    (m' !! previousKey = None ∧
     ∃ e, m !! previousKey = Some e ∧ expired now e = true).
Proof.
  assert (∃ v m',
    RegionRatelimit.slidingWindow tokens w now {| cache := Some m |}
      identifier = (inr v, {| cache := Some m' |}) ∧
    (∀ key, key ≠ identifier → key ≠ join_key identifier (now / w) →
       m' !! key = m !! key ∨
       (m' !! key = None ∧ ∃ e, m !! key = Some e ∧ expired now e = true)))
    as (v & m' & Hrun & Hframe).
  { destruct (isBlocked_outcome identifier now m)
      as [(e & He & Hle & Hb)|(m1 & Hb & Hm1 & _)].
    - pose proof (algorithm_fast_reject identifier m (value e)
                    ltac:(eauto) (SlidingWindow tokens w) now Hle) as Hrun.
      simpl in Hrun. rewrite Hrun. do 2 eexists. split; [reflexivity|].
      intros. by left.
    - rewrite (slidingWindow_not_blocked_map _ _ _ _ _ _ _ Hb). cbv zeta.
      do 2 eexists. split; [reflexivity|]. intros key Hid Hkey.
      assert (m1 !! key = m !! key) as Hsame.
      { destruct Hm1 as [->| ->]; [done|]. by rewrite lookup_delete_ne. }
      destruct (num_ge0 _).
      + rewrite lookup_insert_ne by done.
        destruct (sweep_unchanged_or_expired now m1 key)
          as [->|(-> & e & ? & ?)]; [by left|right]. rewrite <- Hsame. eauto.
      + rewrite !lookup_insert_ne by done.
        destruct (sweep_unchanged_or_expired now m1 key)
          as [->|(-> & e & ? & ?)]; [by left|right]. rewrite <- Hsame. eauto. }
  exists v, m'. split; [done|]. split; [done|]. cbv zeta.
  apply Hframe.
  - apply join_key_ne.
  - intros H. apply join_key_inj in H. lia.
Qed.

(** X12. The sliding window sets the expiry of a window counter on its
    first touch only.  A call that is not fast-rejected creates a missing
    counter with the value 1 and [expireAt = now + 2 * windowSize + 1000];
    on a counter that is present, not expired and not 0 it adds 1 and
    leaves [expireAt] as it is. *)
Theorem slidingWindow_expire_on_first_touch (tokens w now : Z)
    (identifier : string) (m m1 : gmap string Entry) (r0 : Z) :
  Cache.isBlocked identifier now m = (inr (false, r0), m1) →
  ∃ v m',
    RegionRatelimit.slidingWindow tokens w now {| cache := Some m |}
      identifier = (inr v, {| cache := Some m' |}) ∧
    match m1 !! join_key identifier (now / w) with
    | None =>
      m' !! join_key identifier (now / w) =
        Some {| value := 1; expireAt := Some (now + (w * 2 + 1000)) |}
    | Some e =>
      expired now e = false → value e ≠ 0 →
      m' !! join_key identifier (now / w) =
        Some {| value := value e + 1;
                expireAt := Some (default 0 (expireAt e)) |}
    end.
Proof.
  intros Hb. rewrite (slidingWindow_not_blocked_map _ _ _ _ _ _ _ Hb).
  cbv zeta. do 2 eexists. split; [reflexivity|].
  assert (∀ m2 : gmap string Entry,
            (<[identifier := {| value := (now / w + 1) * w;
                                expireAt := None |}]> m2)
              !! join_key identifier (now / w) =
            m2 !! join_key identifier (now / w)) as Hblock.
  { intros m2. apply lookup_insert_ne. intros H. symmetry in H.
    by apply join_key_ne in H. }
  rewrite sweep_lookup.
  destruct (m1 !! join_key identifier (now / w)) as [e|] eqn:He.
  - intros Hexp Hv. rewrite Hexp. simpl.
    rewrite (proj2 (Z.eqb_neq (value e + 1) 1)) by lia.
    destruct (num_ge0 _); rewrite ?Hblock, lookup_insert_eq;
      by destruct e as [? [?|]].
  - simpl. destruct (num_ge0 _); by rewrite ?Hblock, lookup_insert_eq.
Qed.

Lemma slidingWindow_expire_on_first_touch_witness :
  let m : gmap string Entry :=
    <["X:2" := {| value := 1; expireAt := Some 41000 |}]> ∅ in
  (∃ v m',
     RegionRatelimit.slidingWindow 10 10000 20000 {| cache := Some ∅ |} "X" =
       (inr v, {| cache := Some m' |}) ∧
     m' !! "X:2" = Some {| value := 1; expireAt := Some 41000 |}) ∧
  (∃ v m',
     RegionRatelimit.slidingWindow 10 10000 25000 {| cache := Some m |} "X" =
       (inr v, {| cache := Some m' |}) ∧
     (expired 25000 {| value := 1; expireAt := Some 41000 |} = false →
      1 ≠ 0 →
      m' !! "X:2" = Some {| value := 2; expireAt := Some 41000 |})).
Proof.
  intros m. split.
  - exact (slidingWindow_expire_on_first_touch 10 10000 20000 "X" ∅ ∅ 0
             eq_refl).
  - exact (slidingWindow_expire_on_first_touch 10 10000 25000 "X" m m 0
             eq_refl).
Defined.

(** X13. In its first window the sliding window rejects everybody.  For a
    positive window size and an instant before the end of the first window
    (window index 0) the weight of the previous window is [NaN]: a call that
    is not fast-rejected returns [success = false] with [remaining = NaN]
    and blocks the identifier until the end of the window. *)
Theorem slidingWindow_first_window_rejects (tokens w now : Z)
    (identifier : string) (m m1 : gmap string Entry) (r0 : Z) :
  0 < w → 0 ≤ now < w →
  Cache.isBlocked identifier now m = (inr (false, r0), m1) →
  ∃ m',
    RegionRatelimit.slidingWindow tokens w now {| cache := Some m |}
      identifier =
      (inr {| success := false; limit := tokens;
              remaining := NaN; reset := w |}, {| cache := Some m' |}) ∧
    m' !! identifier = Some {| value := w; expireAt := None |}.
Proof.
  intros Hw Hnow Hb.
  rewrite (slidingWindow_not_blocked_map _ _ _ _ _ _ _ Hb). cbv zeta.
  rewrite (Z.div_small now w) by lia. simpl.
  replace ((0 + 1) * w) with w by lia.
  eexists. split; [reflexivity|]. by rewrite lookup_insert_eq.
Qed.

Lemma slidingWindow_first_window_rejects_witness :
  ∃ m',
    RegionRatelimit.slidingWindow 10 10000 9999 {| cache := Some ∅ |} "X" =
      (inr {| success := false; limit := 10;
              remaining := NaN; reset := 10000 |}, {| cache := Some m' |}) ∧
    m' !! "X" = Some {| value := 10000; expireAt := None |}.
Proof.
  apply (slidingWindow_first_window_rejects 10 10000 9999 "X" ∅ ∅ 0).
  - lia.
  - lia.
  - reflexivity.
Defined.

(** X14. Past the first window the weight of the previous window is a
    number between 0 and the count of that window, and it is the whole
    count whenever the instant is a multiple of the window index. *)
Theorem weightedPrevious_bounds (now c prev : Z) :
  1 ≤ c → 0 ≤ prev →
  ∃ r, RegionRatelimit.weightedPrevious now c prev = Num r ∧
    0 ≤ r ≤ prev ∧ (now `mod` c = 0 → r = prev).
Proof.
  intros Hc Hprev. rewrite weightedPrevious_integer by lia.
  eexists. split; [reflexivity|].
  pose proof (Z.mod_pos_bound now c ltac:(lia)) as Hmod.
  split; [split|].
  - apply Z.div_pos; [|lia]. apply Z.mul_nonneg_nonneg; lia.
  - apply Z.div_le_upper_bound; [lia|]. nia.
  - intros ->. rewrite Z.sub_0_r. rewrite Z.mul_comm. apply Z.div_mul. lia.
Qed.

Lemma weightedPrevious_bounds_witness :
  ∃ r, RegionRatelimit.weightedPrevious 1700000012345 170000001 7 = Num r ∧
    0 ≤ r ≤ 7 ∧ (1700000012345 `mod` 170000001 = 0 → r = 7).
Proof.
  apply (weightedPrevious_bounds 1700000012345 170000001 7); lia.
Defined.

End AlgorithmProperties.

Section SlidingWindowCounting.

Variables (tokens w c : Z) (identifier : string).
Hypothesis Hw : 0 < w.
Hypothesis Hc : 1 ≤ c.

(** One call in the window [c] after [k] counted calls, the window before
    having counted nothing. *)
Lemma slidingWindow_step k now m :
  0 ≤ k → now / w = c → sliding_counted identifier w c k m →
  ∃ m', RegionRatelimit.slidingWindow tokens w now {| cache := Some m |}
          identifier =
        (inr {| success := k + 1 <=? tokens; limit := tokens;
                remaining := Num (Z.max 0 (tokens - (k + 1)));
                reset := (c + 1) * w |}, {| cache := Some m' |})
    ∧ (k + 1 ≤ tokens → sliding_counted identifier w c (k + 1) m')
    ∧ (tokens < k + 1 →
       m' !! identifier =
         Some {| value := (c + 1) * w; expireAt := None |}).
Proof.
  intros Hk Hb (Hid & Hprev & Hcur).
  pose proof (in_bucket_bounds w c Hw now Hb) as Hnow.
  assert (Cache.isBlocked identifier now m = (inr (false, 0), m)) as Hnb.
  { by rewrite isBlocked_run, Hid. }
  rewrite (slidingWindow_not_blocked_map _ _ _ _ _ _ _ Hnb). cbv zeta.
  rewrite Hb, Hprev. simpl Cache.value_or_0.
  rewrite weightedPrevious_integer by lia.
  rewrite Z.mul_0_r, Z.div_0_l by lia. simpl num_add. simpl num_sub.
  rewrite Z.add_0_r.
  assert (Cache.value_or_0 (sweep now m !! join_key identifier c) = k)
    as Hval.
  { rewrite sweep_lookup.
    destruct Hcur as [[-> ->]|(x & -> & Hx)]; [done|].
    unfold expired. simpl.
    rewrite (bool_decide_eq_false_2 (x ≤ now)) by lia.
    by rewrite andb_false_r. }
  rewrite Hval. simpl num_ge0. simpl num_max0.
  assert ((0 <=? tokens - (k + 1)) = (k + 1 <=? tokens)) as ->.
  { destruct (Z.leb_spec 0 (tokens - (k + 1)));
      destruct (Z.leb_spec (k + 1) tokens); lia || done. }
  eexists. split; [reflexivity|]. split.
  - intros Hle. rewrite (proj2 (Z.leb_le _ _) Hle).
    split; [|split].
    + rewrite lookup_insert_ne by apply join_key_ne.
      by rewrite sweep_lookup, Hid.
    + rewrite lookup_insert_ne
        by (intros H; apply join_key_inj in H; lia).
      by rewrite sweep_lookup, Hprev.
    + right. rewrite lookup_insert_eq. eexists. split; [reflexivity|].
      destruct (Z.eqb_spec (k + 1) 1) as [_|Hne]; [nia|].
      rewrite sweep_lookup.
      destruct Hcur as [[-> _]|(x & -> & Hx)]; [lia|].
      unfold expired. simpl.
      rewrite (bool_decide_eq_false_2 (x ≤ now)) by lia.
      by rewrite andb_false_r.
  - intros Hlt. rewrite (proj2 (Z.leb_gt _ _) Hlt).
    by rewrite lookup_insert_eq.
Qed.

Lemma slidingWindow_window ts k m :
  0 ≤ k ≤ tokens →
  length ts = Z.to_nat (tokens - k + 1) →
  Forall (λ t, t / w = c) ts →
  sliding_counted identifier w c k m →
  ∃ m', run_calls (RegionRatelimit.slidingWindow tokens w) identifier ts
          {| cache := Some m |} =
        (((λ i, inr (mkVerdict true tokens (Num (tokens - i)) ((c + 1) * w)))
            <$> seqZ (k + 1) (tokens - k))
           ++ [short_circuited tokens ((c + 1) * w)], {| cache := Some m' |})
    ∧ m' !! identifier =
        Some {| value := (c + 1) * w; expireAt := None |}.
Proof.
  revert k m. induction ts as [|t ts IH]; intros k m Hk Hlen Hts Hm.
  - simpl in Hlen. lia.
  - apply Forall_cons in Hts as [Ht Hts].
    destruct (slidingWindow_step k t m ltac:(lia) Ht Hm)
      as (m' & Hrun & Hadm & Hrej).
    simpl. rewrite Hrun.
    destruct (decide (k = tokens)) as [->|Hne].
    + assert (ts = []) as ->.
      { apply nil_length_inv. simpl in Hlen. lia. }
      simpl. exists m'. split; [|apply Hrej; lia].
      rewrite seqZ_nil by lia. simpl. unfold short_circuited.
      rewrite (proj2 (Z.leb_gt _ _)) by lia.
      by rewrite Z.max_l by lia.
    + destruct (IH (k + 1) m') as (m'' & Hrun' & Hblock);
        [lia | simpl in Hlen; lia | done | apply Hadm; lia |].
      rewrite Hrun'. exists m''. split; [|done].
      rewrite (seqZ_cons (k + 1)) by lia. simpl.
      rewrite (proj2 (Z.leb_le _ _)) by lia.
      rewrite Z.max_r by lia.
      repeat f_equal; lia.
Qed.

End SlidingWindowCounting.

(** X15. When the previous window counted nothing, the sliding window
    counts like a fixed window.  Past the first window, on a cache without
    block record and without counters for the window [c] and the one before
    it, of any calls for the identifier made at instants of the window [c]
    the first [tokens] return [success = true] with [remaining] descending
    [tokens - 1, ..., 0], call [tokens + 1] returns [success = false] with
    [remaining = 0] and blocks the identifier until [(c + 1) * w], and every
    further call of the window is rejected from that record; every verdict
    carries [reset = (c + 1) * w]. *)
Theorem slidingWindow_counts_like_fixed (tokens w c : Z)
    (identifier : string) (ts extra : list Z) (m : gmap string Entry) :
  0 ≤ tokens → 0 < w → 1 ≤ c →
  m !! identifier = None →
  m !! join_key identifier c = None →
  m !! join_key identifier (c - 1) = None →
  length ts = Z.to_nat (tokens + 1) →
  Forall (λ t, t / w = c) (ts ++ extra) →
  ∃ m', run_calls (RegionRatelimit.slidingWindow tokens w) identifier
          (ts ++ extra) {| cache := Some m |} =
        (((λ i, inr (mkVerdict true tokens (Num (tokens - i)) ((c + 1) * w)))
            <$> seqZ 1 tokens)
           ++ [short_circuited tokens ((c + 1) * w)]
           ++ ((λ _, short_circuited tokens ((c + 1) * w)) <$> extra),
         {| cache := Some m' |})
    ∧ m' !! identifier = Some {| value := (c + 1) * w; expireAt := None |}.
Proof.
  intros Htok Hw Hc Hid Hcur Hprev Hlen Hts.
  apply Forall_app in Hts as [Hts Hextra].
  destruct (slidingWindow_window tokens w c identifier Hw Hc ts 0 m)
    as (m' & Hrun & Hblock); [lia | by rewrite Z.sub_0_r | done | | ].
  { split; [done|]. split; [done|]. by left. }
  exists m'. split; [|done].
  assert (Forall (λ t, t ≤ (c + 1) * w) extra) as Hle.
  { eapply Forall_impl; [exact Hextra|]. intros t Ht. simpl in Ht.
    pose proof (in_bucket_bounds w c Hw t Ht). lia. }
  pose proof (run_calls_fast_reject identifier m' ((c + 1) * w)
                ltac:(eauto) (SlidingWindow tokens w) extra Hle) as Hfast.
  simpl in Hfast.
  rewrite run_calls_app, Hrun. cbv beta iota. rewrite Hfast.
  by rewrite Z.sub_0_r, <- app_assoc.
Qed.

Lemma slidingWindow_counts_like_fixed_witness :
  ∃ m', run_calls (RegionRatelimit.slidingWindow 3 10000) "X"
          ([20000; 24000; 24001; 29998] ++ [29999]) {| cache := Some ∅ |} =
        ([inr (mkVerdict true 3 (Num 2) 30000);
          inr (mkVerdict true 3 (Num 1) 30000);
          inr (mkVerdict true 3 (Num 0) 30000);
          inr (mkVerdict false 3 (Num 0) 30000);
          inr (mkVerdict false 3 (Num 0) 30000)], {| cache := Some m' |})
    ∧ m' !! "X" = Some {| value := 30000; expireAt := None |}.
Proof.
  apply (slidingWindow_counts_like_fixed 3 10000 2 "X"
           [20000; 24000; 24001; 29998] [29999] ∅).
  - lia.
  - lia.
  - lia.
  - reflexivity.
  - reflexivity.
  - reflexivity.
  - reflexivity.
  - repeat (constructor; [reflexivity|]). constructor.
Defined.

(** X16. [tokenBucket] with a cache never raises and writes nothing: it
    rejects only from a block record that is still in force, with the
    instant of that record, and admits every other call with
    [remaining = 0] and [reset = 0]; the map it leaves is the map it found
    when the identifier has no record, and the map it found less the record
    when that record had lapsed. *)
Theorem tokenBucket_only_reads_block_index
    (refillRate intervalDuration maxTokens now : Z) (identifier : string)
    (m : gmap string Entry) :
  ∃ v m',
    RegionRatelimit.tokenBucket refillRate intervalDuration maxTokens now
      {| cache := Some m |} identifier = (inr v, {| cache := Some m' |}) ∧
    ((∃ e, m !! identifier = Some e ∧ now ≤ value e ∧ m' = m ∧
           v = {| success := false; limit := maxTokens;
                  remaining := Num 0; reset := value e |}) ∨
     ((m !! identifier = None ∧ m' = m ∨
       ∃ e, m !! identifier = Some e ∧ value e < now ∧
            m' = delete identifier m) ∧
      m' !! identifier = None ∧
      v = {| success := true; limit := maxTokens;
             remaining := Num 0; reset := 0 |})).
Proof.
  destruct (m !! identifier) as [e|] eqn:He.
  - destruct (Z.ltb_spec (value e) now) as [Hlt|Hle].
    + rewrite (tokenBucket_not_blocked _ _ _ now identifier m 0
                 (delete identifier m))
        by (rewrite isBlocked_run, He; by rewrite (proj2 (Z.ltb_lt _ _))).
      do 2 eexists. split; [reflexivity|]. right.
      split; [right; eauto|]. split; [by rewrite lookup_delete_eq|done].
    + pose proof (algorithm_fast_reject identifier m (value e) ltac:(eauto)
                    (TokenBucket refillRate intervalDuration maxTokens) now
                    Hle) as Hrun.
      simpl in Hrun. rewrite Hrun. do 2 eexists. split; [reflexivity|].
      left. exists e. done.
  - rewrite (tokenBucket_not_blocked _ _ _ now identifier m 0 m)
      by (by rewrite isBlocked_run, He).
    do 2 eexists. split; [reflexivity|]. right.
    split; [by left|]. done.
Qed.

Section CachedFixedWindow.

Implicit Types (identifier : string) (m : gmap string Entry) (now : Z).

(** The miss path of [cachedFixedWindow]: the window key is missing or
    holds 0. *)
Lemma cachedFixedWindow_miss tokens w now identifier m :
  Cache.value_or_0 (m !! join_key identifier (now / w)) = 0 →
  RegionRatelimit.cachedFixedWindow tokens w now {| cache := Some m |}
    identifier =
  (inr {| success := 0 <=? tokens; limit := tokens;
          remaining := Num tokens; reset := (now / w + 1) * w |},
   {| cache :=
        Some (<[join_key identifier (now / w) :=
                  {| value := 0;
                     expireAt :=
                       Some (Cache.expireAt_or_0
                               (m !! join_key identifier (now / w))) |}]>
                m) |}).
Proof.
  intros Hz.
  unfold RegionRatelimit.cachedFixedWindow, on_cache. simpl.
  rewrite bind_run, get_run.
  assert (match m !! join_key identifier (now / w) with
          | Some e => if value e =? 0 then None else Some (value e)
          | None => None
          end = None) as ->.
  { destruct (m !! join_key identifier (now / w)) as [e|]; [|done].
    simpl in Hz. by rewrite Hz. }
  simpl. by rewrite Z.sub_0_r.
Qed.

Lemma cachedFixedWindow_run_zero tokens w identifier ts :
  ∀ m, zero_valued m →
    ∃ m', run_calls (RegionRatelimit.cachedFixedWindow tokens w) identifier ts
            {| cache := Some m |} =
          ((λ t, inr {| success := 0 <=? tokens; limit := tokens;
                        remaining := Num tokens;
                        reset := (t / w + 1) * w |}) <$> ts,
           {| cache := Some m' |}) ∧ zero_valued m'.
Proof.
  induction ts as [|t ts IH]; intros m Hm; [by exists m|].
  cbn [run_calls]. rewrite cachedFixedWindow_miss.
  - destruct (IH (<[join_key identifier (t / w) :=
                      {| value := 0;
                         expireAt :=
                           Some (Cache.expireAt_or_0
                                   (m !! join_key identifier (t / w))) |}]> m))
      as (m' & -> & Hm').
    + intros key e. rewrite lookup_insert.
      case_decide; [by intros [= <-]|apply Hm].
    + by exists m'.
  - destruct (m !! join_key identifier (t / w)) as [e|] eqn:He; [|done].
    simpl. by apply (Hm (join_key identifier (t / w)) e).
Qed.

End CachedFixedWindow.

(** X17. On its own [cachedFixedWindow] never limits.  On a cache that only
    it has written to (every stored value is 0; the empty cache in
    particular), every call, at any instant and in any number, takes the
    miss path: the 0 that the miss path stores reads back as absent, so the
    counter is never incremented; the call returns
    [success = (0 <= tokens)], [remaining = tokens] and the start of the
    next bucket, and every stored value is still 0. *)
Theorem cachedFixedWindow_never_limits (tokens w : Z) (identifier : string)
    (ts : list Z) (m : gmap string Entry) :
  zero_valued m →
  ∃ m', run_calls (RegionRatelimit.cachedFixedWindow tokens w) identifier ts
          {| cache := Some m |} =
        ((λ t, inr {| success := 0 <=? tokens; limit := tokens;
                      remaining := Num tokens;
                      reset := (t / w + 1) * w |}) <$> ts,
         {| cache := Some m' |}) ∧ zero_valued m'.
Proof. apply cachedFixedWindow_run_zero. Qed.

Lemma cachedFixedWindow_never_limits_witness :
  ∃ m', run_calls (RegionRatelimit.cachedFixedWindow 2 10000) "X"
          [20000; 20001; 20002; 20003; 20004] {| cache := Some ∅ |} =
        ([inr (mkVerdict true 2 (Num 2) 30000);
          inr (mkVerdict true 2 (Num 2) 30000);
          inr (mkVerdict true 2 (Num 2) 30000);
          inr (mkVerdict true 2 (Num 2) 30000);
          inr (mkVerdict true 2 (Num 2) 30000)], {| cache := Some m' |}) ∧
    zero_valued m'.
Proof.
  apply (cachedFixedWindow_never_limits 2 10000 "X"
           [20000; 20001; 20002; 20003; 20004] ∅).
  intros key e H. by rewrite lookup_empty in H.
Defined.

(** X18. [cachedFixedWindow] does not consult the block index.  An
    identifier with a block record that is still in force, whose window key
    is missing, is not rejected: the call takes the miss path, and the block
    record is left as it is. *)
Theorem cachedFixedWindow_ignores_block_index (tokens w now : Z)
    (identifier : string) (m : gmap string Entry) (e : Entry) :
  m !! identifier = Some e → now ≤ value e →
  m !! join_key identifier (now / w) = None →
  Cache.isBlocked identifier now m = (inr (true, value e), m) ∧
  ∃ m',
    RegionRatelimit.cachedFixedWindow tokens w now {| cache := Some m |}
      identifier =
      (inr {| success := 0 <=? tokens; limit := tokens;
              remaining := Num tokens; reset := (now / w + 1) * w |},
       {| cache := Some m' |}) ∧
    m' !! identifier = Some e.
Proof.
  intros He Hle Hkey. split.
  - by apply isBlocked_before; eauto.
  - rewrite cachedFixedWindow_miss by (by rewrite Hkey).
    eexists. split; [reflexivity|].
    by rewrite lookup_insert_ne by apply join_key_ne.
Qed.

Lemma cachedFixedWindow_ignores_block_index_witness :
  let m : gmap string Entry :=
    <["X" := {| value := 30000; expireAt := None |}]> ∅ in
  Cache.isBlocked "X" 25000 m = (inr (true, 30000), m) ∧
  ∃ m',
    RegionRatelimit.cachedFixedWindow 10 10000 25000 {| cache := Some m |}
      "X" =
      (inr {| success := true; limit := 10;
              remaining := Num 10; reset := 30000 |},
       {| cache := Some m' |}) ∧
    m' !! "X" = Some {| value := 30000; expireAt := None |}.
Proof.
  intros m.
  apply (cachedFixedWindow_ignores_block_index 10 10000 25000 "X" m
           {| value := 30000; expireAt := None |}).
  - reflexivity.
  - simpl. lia.
  - reflexivity.
Defined.

Section VerdictAndBlockIndex.

Implicit Types (identifier : string) (m : gmap string Entry) (now : Z).

Lemma sweep_lookup_none now m key :
  m !! key = None → sweep now m !! key = None.
Proof. intros H. by rewrite sweep_lookup, H. Qed.

Lemma sweep_lookup_agree now m m2 key :
  m !! key = m2 !! key → sweep now m !! key = sweep now m2 !! key.
Proof. intros H. by rewrite !sweep_lookup, H. Qed.

(** The verdict of a call that is not fast-rejected only depends on the
    window keys of the identifier. *)
Lemma not_blocked_verdict_agree (l : limiter) now identifier m m1 m2 m3 :
  Cache.isBlocked identifier now m = (inr (false, 0), m1) →
  Cache.isBlocked identifier now m2 = (inr (false, 0), m3) →
  (∀ n, m1 !! join_key identifier n = m3 !! join_key identifier n) →
  (algorithm_of l now {| cache := Some m |} identifier).1 =
  (algorithm_of l now {| cache := Some m2 |} identifier).1.
Proof.
  intros Hb Hb2 Hkeys. destruct l as [tokens w|tokens w|rr ii mx]; simpl.
  - rewrite (fixedWindow_not_blocked _ _ _ _ _ _ _ Hb),
      (fixedWindow_not_blocked _ _ _ _ _ _ _ Hb2). cbv zeta. simpl.
    by rewrite (sweep_lookup_agree now m1 m3 _ (Hkeys (now / w))).
  - rewrite (slidingWindow_not_blocked_map _ _ _ _ _ _ _ Hb),
      (slidingWindow_not_blocked_map _ _ _ _ _ _ _ Hb2). cbv zeta. simpl.
    by rewrite (sweep_lookup_agree now m1 m3 _ (Hkeys (now / w))),
      (Hkeys (now / w - 1)).
  - by rewrite (tokenBucket_not_blocked _ _ _ _ _ _ _ _ Hb),
      (tokenBucket_not_blocked _ _ _ _ _ _ _ _ Hb2).
Qed.

End VerdictAndBlockIndex.

(** X19. On a cache whose stored values are non-negative, with a
    non-negative limit and instant, and past the first window for the
    sliding window, every verdict of the fixed window, the sliding window
    and the token bucket has [remaining] in [[0, limit]]. *)
Theorem remaining_within_limit (l : limiter) (now : Z) (identifier : string)
    (m : gmap string Entry) (v : Verdict) (ctx' : RegionContext) :
  0 ≤ limit_of l → 0 ≤ now → counters_nonneg m →
  (∀ tokens w, l = SlidingWindow tokens w → 1 ≤ now / w) →
  algorithm_of l now {| cache := Some m |} identifier = (inr v, ctx') →
  ∃ r, remaining v = Num r ∧ 0 ≤ r ≤ limit v.
Proof. apply remaining_in_range. Qed.

Lemma remaining_within_limit_witness :
  let m : gmap string Entry :=
    <["X:1" := {| value := 4; expireAt := Some 36000 |}]> ∅ in
  ∃ r,
    remaining {| success := true; limit := 10;
                 remaining := Num 5; reset := 30000 |} = Num r ∧
    0 ≤ r ≤ limit {| success := true; limit := 10;
                     remaining := Num 5; reset := 30000 |}.
Proof.
  intros m.
  apply (remaining_within_limit (SlidingWindow 10 10000) 25000 "X" m
           {| success := true; limit := 10;
              remaining := Num 5; reset := 30000 |}
           {| cache := Some (<["X:2" := {| value := 1;
                                           expireAt := Some 46000 |}]> m) |}).
  - simpl. lia.
  - lia.
  - intros key e H. unfold m in H.
    apply lookup_insert_Some in H as [[_ <-]|[_ H]]; [simpl; lia|].
    by rewrite lookup_empty in H.
  - intros tokens w [= <- <-]. vm_compute. discriminate.
  - vm_compute. reflexivity.
Defined.

(** X20. Identifiers are isolated from one another.  The verdict that the
    fixed window, the sliding window or the token bucket returns for an
    identifier only depends on the block record of that identifier and on
    its window keys: on two caches that agree on these, whatever else they
    hold, a call at the same instant returns the same verdict. *)
Theorem verdict_depends_on_own_keys (l : limiter) (now : Z)
    (identifier : string) (m m2 : gmap string Entry) :
  m !! identifier = m2 !! identifier →
  (∀ n, m !! join_key identifier n = m2 !! join_key identifier n) →
  (algorithm_of l now {| cache := Some m |} identifier).1 =
  (algorithm_of l now {| cache := Some m2 |} identifier).1.
Proof.
  intros Hid Hkeys.
  destruct (m !! identifier) as [e|] eqn:He.
  - destruct (Z.ltb_spec (value e) now) as [Hlt|Hge].
    + apply (not_blocked_verdict_agree l now identifier m
               (delete identifier m) m2 (delete identifier m2)).
      * rewrite isBlocked_run, He. by rewrite (proj2 (Z.ltb_lt _ _)).
      * rewrite isBlocked_run, <- Hid. by rewrite (proj2 (Z.ltb_lt _ _)).
      * intros n. rewrite !lookup_delete_ne
          by (intros H; symmetry in H; by apply join_key_ne in H).
        apply Hkeys.
    + rewrite (algorithm_fast_reject identifier m (value e)
                 ltac:(eauto) l now Hge).
      by rewrite (algorithm_fast_reject identifier m2 (value e)
                    ltac:(eauto) l now Hge).
  - apply (not_blocked_verdict_agree l now identifier m m m2 m2).
    + by rewrite isBlocked_run, He.
    + by rewrite isBlocked_run, <- Hid.
    + done.
Qed.

Lemma verdict_depends_on_own_keys_witness :
  let m : gmap string Entry :=
    <["X:2" := {| value := 3; expireAt := Some 31000 |}]> ∅ in
  let m2 : gmap string Entry :=
    <["Y" := {| value := 30000; expireAt := None |}]>
      (<["Y:2" := {| value := 11; expireAt := Some 32000 |}]> m) in
  (RegionRatelimit.fixedWindow 10 10000 25000 {| cache := Some m |} "X").1 =
  (RegionRatelimit.fixedWindow 10 10000 25000 {| cache := Some m2 |} "X").1.
Proof.
  intros m m2.
  apply (verdict_depends_on_own_keys (FixedWindow 10 10000) 25000 "X" m m2).
  - reflexivity.
  - intros n. unfold m2.
    rewrite lookup_insert_ne by (intros H; apply (f_equal (String.get 0)) in H;
                                 discriminate).
    rewrite lookup_insert_ne by (intros H; apply (f_equal (String.get 0)) in H;
                                 discriminate).
    reflexivity.
Defined.

(** X21. A rejection always comes with a block record, and an admission
    never does.  For the fixed window and the sliding window of a positive
    window size, and for the token bucket: after a call that returned
    [success = false] the identifier has a block record whose instant is at
    or after [now], so that the next call at that instant is fast-rejected;
    after a call that returned [success = true] the identifier has no block
    record. *)
Theorem rejection_iff_blocked (l : limiter) (now : Z) (identifier : string)
    (m : gmap string Entry) :
  (∀ tokens w,
     l = FixedWindow tokens w ∨ l = SlidingWindow tokens w → 0 < w) →
  ∃ v m',
    algorithm_of l now {| cache := Some m |} identifier =
      (inr v, {| cache := Some m' |}) ∧
    (success v = false → ∃ e, m' !! identifier = Some e ∧ now ≤ value e) ∧
    (success v = true → m' !! identifier = None).
Proof.
  intros Hwin.
  destruct (isBlocked_outcome identifier now m)
    as [(e & He & Hle & Hb)|(m1 & Hb & _ & Hnone)].
  - rewrite (algorithm_fast_reject identifier m (value e)
               ltac:(eauto) l now Hle).
    do 2 eexists. split; [reflexivity|]. simpl. split; [eauto|done].
  - destruct l as [tokens w|tokens w|rr ii mx]; simpl.
    + pose proof (Hwin tokens w ltac:(by left)) as Hw.
      pose proof (in_bucket_bounds w (now / w) Hw now eq_refl) as Hnow.
      rewrite (fixedWindow_not_blocked _ _ _ _ _ _ _ Hb). cbv zeta.
      do 2 eexists. split; [reflexivity|]. simpl.
      destruct (_ <=? tokens).
      * split; [done|]. intros _.
        rewrite lookup_insert_ne by apply join_key_ne.
        by apply sweep_lookup_none.
      * split; [|done]. intros _. rewrite lookup_insert_eq.
        eexists. split; [reflexivity|]. simpl. lia.
    + pose proof (Hwin tokens w ltac:(by right)) as Hw.
      pose proof (in_bucket_bounds w (now / w) Hw now eq_refl) as Hnow.
      rewrite (slidingWindow_not_blocked_map _ _ _ _ _ _ _ Hb). cbv zeta.
      do 2 eexists. split; [reflexivity|]. simpl.
      destruct (num_ge0 _).
      * split; [done|]. intros _.
        rewrite lookup_insert_ne by apply join_key_ne.
        by apply sweep_lookup_none.
      * split; [|done]. intros _. rewrite lookup_insert_eq.
        eexists. split; [reflexivity|]. simpl. lia.
    + rewrite (tokenBucket_not_blocked _ _ _ _ _ _ _ _ Hb).
      do 2 eexists. split; [reflexivity|]. simpl. split; [done|]. by intros _.
Qed.

Lemma rejection_iff_blocked_witness :
  let m : gmap string Entry :=
    <["X:2" := {| value := 10; expireAt := Some 31000 |}]> ∅ in
  ∃ v m',
    RegionRatelimit.fixedWindow 10 10000 25000 {| cache := Some m |} "X" =
      (inr v, {| cache := Some m' |}) ∧
    (success v = false → ∃ e, m' !! "X" = Some e ∧ 25000 ≤ value e) ∧
    (success v = true → m' !! "X" = None).
Proof.
  intros m.
  apply (rejection_iff_blocked (FixedWindow 10 10000) 25000 "X" m).
  intros tokens w [[= <- <-]|[=]]. lia.
Defined.
